(** * DUECh dictionary editor: mutation service and search page controller

    A shallow embedding of

    - [src/lib/schema.ts]            (tables [users], [words], [meanings], [examples]),
    - [src/lib/editor-mutations.ts]  ([cleanExample], [normalizeAndCleanExamples],
                                      [insertMeaning], [updateWordByLemma], [createWord]),
    - the module [components/search/search-page], which the sources hold in
      [src/components/search/add-word-modal.tsx]
                                     ([updateStateIfChanged], [handleSearchStateChange],
                                      [executeSearch], [latestRequestRef]),

    followed by the properties of the specification that concern them.

    Conventions.  A JavaScript string is the list of its UTF-16 code units.
    An optional field ([x?: T | null]) is a value of [opt T].  A statement
    sent to the database is a function on the store [DB]; the mutation
    functions thread the store through an error monad and never roll back,
    because the source opens no transaction. *)

From Stdlib Require Import List ZArith NArith Bool Lia PeanoNat Sorted.
Import ListNotations.

Set Implicit Arguments.

(* ================================================================== *)
(** ** JavaScript values                                               *)
(* ================================================================== *)

Module Js.

(** A string, as the sequence of its UTF-16 code units. *)
Definition jsstring := list N.

Fixpoint str_eqb (a b : jsstring) : bool :=
  match a, b with
  | [], [] => true
  | x :: a', y :: b' => N.eqb x y && str_eqb a' b'
  | _, _ => false
  end.

(** An optional field: [undefined], [null] or a value. *)
Inductive opt (A : Type) : Type :=
| Undefined
| Null
| Val (a : A).
Arguments Undefined {A}.
Arguments Null {A}.

(** Truthiness of a string-typed optional field: only a non-empty string
    is truthy. *)
Definition truthy (x : opt jsstring) : bool :=
  match x with
  | Val (_ :: _) => true
  | _ => false
  end.

(** [x || y] on string-typed optional fields. *)
Definition js_or (x y : opt jsstring) : opt jsstring :=
  if truthy x then x else y.

(** [x || null], the value that reaches a nullable text column. *)
Definition or_null (x : opt jsstring) : option jsstring :=
  match x with
  | Val (c :: s) => Some (c :: s)
  | _ => None
  end.

(** [x ?? d]. *)
Definition nullish (A : Type) (x : opt A) (d : A) : A :=
  match x with
  | Val a => a
  | _ => d
  end.

(** [x ?? null]. *)
Definition nullish_null (A : Type) (x : opt A) : option A :=
  match x with
  | Val a => Some a
  | _ => None
  end.

(** [s[0]]: the first code unit as a one-unit string, [undefined] on the
    empty string. *)
Definition first_unit (s : jsstring) : opt jsstring :=
  match s with
  | [] => Undefined
  | c :: _ => Val [c]
  end.

(** WhiteSpace and LineTerminator code points of ECMAScript, the ones
    [String.prototype.trim] removes. *)
Definition is_ws (c : N) : bool :=
  ((9 <=? c) && (c <=? 13) || (c =? 32) || (c =? 160) || (c =? 5760)
   || (8192 <=? c) && (c <=? 8202) || (c =? 8232) || (c =? 8233)
   || (c =? 8239) || (c =? 8287) || (c =? 12288) || (c =? 65279))%N.

Fixpoint trimStart (s : jsstring) : jsstring :=
  match s with
  | [] => []
  | c :: s' => if is_ws c then trimStart s' else s
  end.

Definition trimEnd (s : jsstring) : jsstring := rev (trimStart (rev s)).

Definition trim (s : jsstring) : jsstring := trimEnd (trimStart s).

(** [String.prototype.toLowerCase] on the Basic Latin and Latin-1
    Supplement blocks, where it acts on each code unit separately: A-Z and
    U+00C0-U+00DE (without the multiplication sign U+00D7) move up by 32.
    Code units outside these blocks are left as they are by this
    instance. *)
Definition lower_unit (c : N) : N :=
  (if (65 <=? c) && (c <=? 90)
      || (192 <=? c) && (c <=? 222) && negb (c =? 215)
   then c + 32 else c)%N.

Definition toLowerCase_latin1 (s : jsstring) : jsstring := map lower_unit s.

(** String literals. *)
Definition s_a : jsstring := [97%N].
Definition s_included : jsstring := [105; 110; 99; 108; 117; 100; 101; 100]%N.
Definition s_draft : jsstring := [100; 114; 97; 102; 116]%N.
Definition s_casa : jsstring := [99; 97; 115; 97]%N.

End Js.
Import Js.

(* ================================================================== *)
(** ** The relational store ([src/lib/schema.ts])                      *)
(* ================================================================== *)

Module Store.

(** The seven usage-marker columns of [meanings]. *)
Inductive MeaningMarkerKey : Type :=
| socialValuations
| socialStratumMarkers
| styleMarkers
| intentionalityMarkers
| geographicalMarkers
| chronologicalMarkers
| frequencyMarkers.

Record Markers (A : Type) : Type := mkMarkers {
  mk_socialValuations : A;
  mk_socialStratumMarkers : A;
  mk_styleMarkers : A;
  mk_intentionalityMarkers : A;
  mk_geographicalMarkers : A;
  mk_chronologicalMarkers : A;
  mk_frequencyMarkers : A
}.

Definition marker_get (A : Type) (m : Markers A) (k : MeaningMarkerKey) : A :=
  match k with
  | socialValuations => mk_socialValuations m
  | socialStratumMarkers => mk_socialStratumMarkers m
  | styleMarkers => mk_styleMarkers m
  | intentionalityMarkers => mk_intentionalityMarkers m
  | geographicalMarkers => mk_geographicalMarkers m
  | chronologicalMarkers => mk_chronologicalMarkers m
  | frequencyMarkers => mk_frequencyMarkers m
  end.

Definition marker_set (A : Type) (m : Markers A) (k : MeaningMarkerKey) (a : A)
  : Markers A :=
  match m with
  | mkMarkers v1 v2 v3 v4 v5 v6 v7 =>
    match k with
    | socialValuations => mkMarkers a v2 v3 v4 v5 v6 v7
    | socialStratumMarkers => mkMarkers v1 a v3 v4 v5 v6 v7
    | styleMarkers => mkMarkers v1 v2 a v4 v5 v6 v7
    | intentionalityMarkers => mkMarkers v1 v2 v3 a v5 v6 v7
    | geographicalMarkers => mkMarkers v1 v2 v3 v4 a v6 v7
    | chronologicalMarkers => mkMarkers v1 v2 v3 v4 v5 a v7
    | frequencyMarkers => mkMarkers v1 v2 v3 v4 v5 v6 a
    end
  end.

Definition markers_all (A : Type) (a : A) : Markers A :=
  mkMarkers a a a a a a a.

(** A row of [words].  [serial] keys are natural numbers; timestamps are
    instants on an integer clock. *)
Record WordRow : Type := mkWordRow {
  w_id : nat;
  w_lemma : jsstring;
  w_root : option jsstring;
  w_letter : jsstring;
  w_variant : option jsstring;
  w_status : jsstring;
  w_createdBy : option nat;
  w_assignedTo : option nat;
  w_createdAt : Z;
  w_updatedAt : Z
}.

(** The column values of a [meanings] row that the application supplies. *)
Record MeaningValues : Type := mkMeaningValues {
  mv_number : Z;
  mv_origin : option jsstring;
  mv_meaning : jsstring;
  mv_observation : option jsstring;
  mv_remission : option jsstring;
  mv_grammarCategory : option jsstring;
  mv_dictionary : option jsstring;
  mv_variant : option jsstring;
  mv_markers : Markers (option jsstring)
}.

Record MeaningRow : Type := mkMeaningRow {
  m_id : nat;
  m_wordId : nat;
  m_values : MeaningValues;
  m_createdAt : Z;
  m_updatedAt : Z
}.

(** The column values of an [examples] row that the application supplies:
    the object [cleanExample] returns. *)
Record ExampleValues : Type := mkExampleValues {
  ev_value : jsstring;
  ev_author : option jsstring;
  ev_year : option jsstring;
  ev_publication : option jsstring;
  ev_format : option jsstring;
  ev_title : option jsstring;
  ev_date : option jsstring;
  ev_city : option jsstring;
  ev_editorial : option jsstring;
  ev_volume : option jsstring;
  ev_number : option jsstring;
  ev_page : option jsstring;
  ev_doi : option jsstring;
  ev_url : option jsstring
}.

Record ExampleRow : Type := mkExampleRow {
  e_id : nat;
  e_meaningId : nat;
  e_values : ExampleValues;
  e_createdAt : Z;
  e_updatedAt : Z
}.

(** The store: the rows of each table in insertion order, the identifiers
    of the [users] rows (the only column of [users] the mutations refer
    to), and the last value handed out by each [serial] sequence. *)
Record DB : Type := mkDB {
  users : list nat;
  words : list WordRow;
  meanings : list MeaningRow;
  examples : list ExampleRow;
  words_id_seq : nat;
  meanings_id_seq : nat;
  examples_id_seq : nat
}.

Definition empty_db (us : list nat) : DB := mkDB us [] [] [] 0 0 0.

(** Why the database rejects a statement. *)
Inductive violation : Type :=
| IntegerOutOfRange   (* a value outside [integer], the 32-bit signed type *)
| ForeignKey.         (* a reference to a [users] row that does not exist *)

(** [integer] columns hold 32-bit signed values. *)
Definition int4 (z : Z) : bool :=
  ((-2147483648 <=? z) && (z <=? 2147483647))%Z.

(** [references(() => users.id)] on a nullable column. *)
Definition fk_user (db : DB) (u : option nat) : bool :=
  match u with
  | None => true
  | Some i => existsb (Nat.eqb i) (users db)
  end.

(** [db.query.words.findFirst({ where: eq(words.lemma, l) })]: the first
    row whose lemma is exactly [l]. *)
Definition findFirst_lemma (db : DB) (l : jsstring) : option WordRow :=
  find (fun w => str_eqb (w_lemma w) l) (words db).

(** The values of [db.insert(words).values({...})] in [createWord].  A
    column left out takes the default the schema declares: ['draft'] for
    [status]. *)
Record WordInsert : Type := mkWordInsert {
  wi_lemma : jsstring;
  wi_root : option jsstring;
  wi_letter : jsstring;
  wi_status : option jsstring;
  wi_createdBy : option nat;
  wi_assignedTo : option nat
}.

Definition status_default : jsstring := s_draft.

(** [db.insert(words).values(v).returning()].  The sequence value is
    drawn before the constraints are checked, so a rejected insert still
    consumes it. *)
Definition insert_word (db : DB) (now : Z) (v : WordInsert)
  : (violation + WordRow) * DB :=
  let id := S (words_id_seq db) in
  if fk_user db (wi_createdBy v) && fk_user db (wi_assignedTo v) then
    let row := mkWordRow id (wi_lemma v) (wi_root v) (wi_letter v) None
                 (match wi_status v with Some s => s | None => status_default end)
                 (wi_createdBy v) (wi_assignedTo v) now now in
    (inr row,
     mkDB (users db) (words db ++ [row]) (meanings db) (examples db)
          id (meanings_id_seq db) (examples_id_seq db))
  else
    (inl ForeignKey,
     mkDB (users db) (words db) (meanings db) (examples db)
          id (meanings_id_seq db) (examples_id_seq db)).

(** [Partial<typeof words.$inferInsert>] as [updateWordByLemma] builds it:
    [lemma], [root] and [updatedAt] always, [status] and [assignedTo] only
    when set. *)
Record WordUpdate : Type := mkWordUpdate {
  wu_lemma : jsstring;
  wu_root : option jsstring;
  wu_updatedAt : Z;
  wu_status : option jsstring;
  wu_assignedTo : option (option nat)
}.

Definition apply_update (u : WordUpdate) (w : WordRow) : WordRow :=
  mkWordRow (w_id w) (wu_lemma u) (wu_root u) (w_letter w) (w_variant w)
    (match wu_status u with Some s => s | None => w_status w end)
    (w_createdBy w)
    (match wu_assignedTo u with Some a => a | None => w_assignedTo w end)
    (w_createdAt w) (wu_updatedAt u).

(** [db.update(words).set(u).where(eq(words.id, id))]. *)
Definition update_word (db : DB) (id : nat) (u : WordUpdate)
  : (violation + unit) * DB :=
  if match wu_assignedTo u with Some a => fk_user db a | None => true end then
    (inr tt,
     mkDB (users db)
          (map (fun w => if Nat.eqb (w_id w) id then apply_update u w else w)
               (words db))
          (meanings db) (examples db)
          (words_id_seq db) (meanings_id_seq db) (examples_id_seq db))
  else (inl ForeignKey, db).

(** [db.delete(meanings).where(eq(meanings.wordId, id))], with the
    [onDelete: 'cascade'] of [examples.meaningId]: an example goes when its
    meaning goes. *)
Definition delete_meanings (db : DB) (id : nat) : DB :=
  let kept := filter (fun m => negb (Nat.eqb (m_wordId m) id)) (meanings db) in
  mkDB (users db) (words db) kept
       (filter (fun e => existsb (fun m => Nat.eqb (m_id m) (e_meaningId e)) kept)
               (examples db))
       (words_id_seq db) (meanings_id_seq db) (examples_id_seq db).

(** [db.insert(meanings).values({wordId, ...}).returning({ id })].  A
    [number] that does not fit the [integer] column is rejected before the
    row is built.  The word referred to has been read or inserted by the
    caller. *)
Definition insert_meaning (db : DB) (now : Z) (wordId : nat) (v : MeaningValues)
  : (violation + nat) * DB :=
  if int4 (mv_number v) then
    let id := S (meanings_id_seq db) in
    (inr id,
     mkDB (users db) (words db)
          (meanings db ++ [mkMeaningRow id wordId v now now])
          (examples db)
          (words_id_seq db) id (examples_id_seq db))
  else (inl IntegerOutOfRange, db).

(** Rows of one multi-row [insert(examples).values([...])]: consecutive
    identifiers from [next] on. *)
Fixpoint example_rows (next : nat) (now : Z) (meaningId : nat)
  (vs : list ExampleValues) : list ExampleRow :=
  match vs with
  | [] => []
  | v :: vs' =>
    mkExampleRow next meaningId v now now
      :: example_rows (S next) now meaningId vs'
  end.

(** [db.insert(examples).values(vs.map(ex => ({ meaningId, ...ex })))]. *)
Definition insert_examples (db : DB) (now : Z) (meaningId : nat)
  (vs : list ExampleValues) : DB :=
  mkDB (users db) (words db) (meanings db)
       (examples db ++ example_rows (S (examples_id_seq db)) now meaningId vs)
       (words_id_seq db) (meanings_id_seq db)
       (examples_id_seq db + length vs).

(** Reading a word's meanings back: its [meanings] rows in table order,
    each with the [examples] rows that refer to it. *)
Definition examples_of (db : DB) (meaningId : nat) : list ExampleRow :=
  filter (fun e => Nat.eqb (e_meaningId e) meaningId) (examples db).

Definition meanings_of (db : DB) (wordId : nat) : list MeaningRow :=
  filter (fun m => Nat.eqb (m_wordId m) wordId) (meanings db).

Definition read_meanings (db : DB) (wordId : nat)
  : list (MeaningValues * list ExampleValues) :=
  map (fun m => (m_values m, map e_values (examples_of db (m_id m))))
      (meanings_of db wordId).

(** Integrity of a store: keys handed out by a sequence are not above its
    last value, and every example refers to a stored meaning. *)
Definition db_wf (db : DB) : bool :=
  forallb (fun m => Nat.leb (m_id m) (meanings_id_seq db)) (meanings db)
  && forallb (fun e => existsb (fun m => Nat.eqb (m_id m) (e_meaningId e))
                               (meanings db))
             (examples db).

End Store.
Import Store.

(* ================================================================== *)
(** ** The mutation service ([src/lib/editor-mutations.ts])            *)
(* ================================================================== *)

Module Mutations.

(** *** Submitted data ([Word], [Word['values'][number]], [Example]) *)

Record Example : Type := mkExample {
  ex_value : jsstring;
  ex_author : opt jsstring;
  ex_year : opt jsstring;
  ex_publication : opt jsstring;
  ex_source : opt jsstring;        (* legacy name of [publication] *)
  ex_format : opt jsstring;
  ex_title : opt jsstring;
  ex_date : opt jsstring;
  ex_city : opt jsstring;
  ex_editorial : opt jsstring;
  ex_volume : opt jsstring;
  ex_number : opt jsstring;
  ex_page : opt jsstring;
  ex_doi : opt jsstring;
  ex_url : opt jsstring
}.

Record Meaning : Type := mkMeaning {
  def_number : Z;
  def_origin : opt jsstring;
  def_meaning : jsstring;
  def_observation : opt jsstring;
  def_remission : opt jsstring;
  def_grammarCategory : opt jsstring;
  def_dictionary : opt jsstring;
  def_variant : opt jsstring;
  def_markers : Markers (opt jsstring);
  def_examples : opt (list Example)
}.

Record Word : Type := mkWord {
  lemma : jsstring;
  root : opt jsstring;
  values : list Meaning
}.

(** Modelled from the spec: [MEANING_MARKER_KEYS] of [lib/definitions],
    which is not among the sources; the specification and the columns of
    [meanings] give the seven marker fields (social valuation, social
    stratum, style, intentionality, geography, chronology, frequency). *)
Definition MEANING_MARKER_KEYS : list MeaningMarkerKey :=
  [socialValuations; socialStratumMarkers; styleMarkers; intentionalityMarkers;
   geographicalMarkers; chronologicalMarkers; frequencyMarkers].

(** *** Errors and the store monad *)

(** What the mutation functions throw: the three [Error]s they raise
    themselves, told apart by their message, and a statement the database
    rejected. *)
Inductive error : Type :=
| LemaObligatorio                  (* 'El lema es obligatorio' *)
| YaExiste (l : jsstring)          (* `Ya existe una palabra con el lema "${l}"` *)
| WordNotFound (l : jsstring)      (* `Word not found: ${l}` *)
| Rejected (v : violation).

(** Modelled from the spec: the error taxonomy of its section 7; the
    source raises plain [Error] objects and has no such classes. *)
Inductive error_kind : Type :=
| ValidationError
| ConflictError
| NotFoundError
| StorageError.

Definition kind_of (e : error) : error_kind :=
  match e with
  | LemaObligatorio => ValidationError
  | YaExiste _ => ConflictError
  | WordNotFound _ => NotFoundError
  | Rejected _ => StorageError
  end.

(** An [async] function over the store: it ends with a value or a thrown
    error, and in both cases with the store its statements have left. *)
Definition M (A : Type) : Type := DB -> (error + A) * DB.

Definition ret (A : Type) (a : A) : M A := fun db => (inr a, db).

Definition throw {A : Type} (e : error) : M A := fun db => (inl e, db).

Definition bind (A B : Type) (c : M A) (k : A -> M B) : M B :=
  fun db =>
    match c db with
    | (inl e, db') => (inl e, db')
    | (inr a, db') => k a db'
    end.

(** [await] of a read. *)
Definition lookup (A : Type) (q : DB -> A) : M A := fun db => (inr (q db), db).

(** [await] of a statement that the database may reject. *)
Definition stmt (A : Type) (s : DB -> (violation + A) * DB) : M A :=
  fun db =>
    match s db with
    | (inl v, db') => (inl (Rejected v), db')
    | (inr a, db') => (inr a, db')
    end.

(** [await] of a statement that cannot be rejected. *)
Definition exec (s : DB -> DB) : M unit := fun db => (inr tt, s db).

Local Notation "x <- c ;; k" := (bind c (fun x => k))
  (at level 61, c at next level, right associativity).
Local Notation "c ;;; k" := (bind c (fun _ => k))
  (at level 61, right associativity).

(** [for (const x of xs) { await body(x); }] *)
Fixpoint for_of (A : Type) (xs : list A) (body : A -> M unit) : M unit :=
  match xs with
  | [] => ret tt
  | x :: xs' => body x ;;; for_of xs' body
  end.

(** *** [cleanExample], [normalizeAndCleanExamples], [insertMeaning] *)

Definition cleanExample (ex : Example) : ExampleValues :=
  {| ev_value := ex_value ex;
     ev_author := or_null (ex_author ex);
     ev_year := or_null (ex_year ex);
     ev_publication := or_null (js_or (ex_publication ex) (ex_source ex));
     ev_format := or_null (ex_format ex);
     ev_title := or_null (ex_title ex);
     ev_date := or_null (ex_date ex);
     ev_city := or_null (ex_city ex);
     ev_editorial := or_null (ex_editorial ex);
     ev_volume := or_null (ex_volume ex);
     ev_number := or_null (ex_number ex);
     ev_page := or_null (ex_page ex);
     ev_doi := or_null (ex_doi ex);
     ev_url := or_null (ex_url ex) |}.

Definition normalizeAndCleanExamples (exs : opt (list Example))
  : list ExampleValues :=
  match exs with
  | Val (e :: es) => map cleanExample (e :: es)
  | _ => []
  end.

(** The [reduce] over [MEANING_MARKER_KEYS]: from the empty object, each
    key is set to [def[key] || null]. *)
Definition markerValues (def : Meaning) : Markers (option jsstring) :=
  fold_left
    (fun acc key => marker_set acc key (or_null (marker_get (def_markers def) key)))
    MEANING_MARKER_KEYS
    (markers_all None).

(** The object passed to [db.insert(meanings).values], without [wordId]. *)
Definition meaningValues (def : Meaning) : MeaningValues :=
  {| mv_number := def_number def;
     mv_origin := or_null (def_origin def);
     mv_meaning := def_meaning def;
     mv_observation := or_null (def_observation def);
     mv_remission := or_null (def_remission def);
     mv_grammarCategory := or_null (def_grammarCategory def);
     mv_dictionary := or_null (def_dictionary def);
     mv_variant := or_null (def_variant def);
     mv_markers := markerValues def |}.

Definition insertMeaning (now : Z) (wordId : nat) (def : Meaning) : M unit :=
  let cleanedExamples := normalizeAndCleanExamples (def_examples def) in
  id <- stmt (fun db => insert_meaning db now wordId (meaningValues def)) ;;
  if Nat.ltb 0 (length cleanedExamples)
  then exec (fun db => insert_examples db now id cleanedExamples)
  else ret tt.

(** *** [updateWordByLemma] *)

(** [options?: { status?: string; assignedTo?: number | null }]; [None] is
    [undefined], and an absent [options] has both fields [None]. *)
Record UpdateOptions : Type := mkUpdateOptions {
  uo_status : option jsstring;
  uo_assignedTo : option (option nat)
}.

Definition updateWordByLemma (now : Z) (prevLemma : jsstring)
  (updatedWord : Word) (options : UpdateOptions) : M unit :=
  existingWord <- lookup (fun db => findFirst_lemma db prevLemma) ;;
  match existingWord with
  | None => throw (WordNotFound prevLemma)
  | Some existingWord =>
    let updateData :=
      {| wu_lemma := lemma updatedWord;
         wu_root := or_null (root updatedWord);
         wu_updatedAt := now;
         wu_status := uo_status options;
         wu_assignedTo := uo_assignedTo options |} in
    stmt (fun db => update_word db (w_id existingWord) updateData) ;;;
    exec (fun db => delete_meanings db (w_id existingWord)) ;;;
    for_of (values updatedWord) (insertMeaning now (w_id existingWord))
  end.

(** *** [createWord] *)

Record CreateWordOptions : Type := mkCreateWordOptions {
  createdBy : opt nat;
  assignedTo : opt nat;
  letter : opt jsstring;
  status : opt jsstring
}.

(** [createWord(newWord)] with [options] left to its default [{}]. *)
Definition no_options : CreateWordOptions :=
  mkCreateWordOptions Undefined Undefined Undefined Undefined.

(** What [createWord] returns, next to [success: true]. *)
Record Created : Type := mkCreated {
  wordId : nat;
  created_lemma : jsstring;
  created_letter : jsstring
}.

(** [x?.trim()] *)
Definition opt_trim (x : opt jsstring) : opt jsstring :=
  match x with
  | Val s => Val (trim s)
  | _ => Undefined
  end.

(** [x?.[0]] *)
Definition opt_first (x : opt jsstring) : opt jsstring :=
  match x with
  | Val s => first_unit s
  | _ => Undefined
  end.

(** [(x || d)] where [d] is a string literal: the result is a string. *)
Definition or_string (x : opt jsstring) (d : jsstring) : jsstring :=
  match x with
  | Val (c :: s) => c :: s
  | _ => d
  end.

Section WithBuiltins.

(** [String.prototype.toLowerCase]. *)
Variable toLowerCase : jsstring -> jsstring.

Definition normalizedLetter (normalizedLemma : jsstring)
  (options : CreateWordOptions) : jsstring :=
  let requestedLetter := opt_trim (letter options) in
  toLowerCase
    (or_string (js_or (opt_first requestedLetter) (first_unit normalizedLemma))
               s_a).


Definition createWord (now : Z) (newWord : Word) (options : CreateWordOptions)
  : M Created :=
  let normalizedLemma := trim (lemma newWord) in
  match normalizedLemma with
  | [] => throw LemaObligatorio
  | _ :: _ =>
    let normalizedRoot := trim (or_string (root newWord) []) in
    let letter := normalizedLetter normalizedLemma options in
    let assignedTo := nullish_null (assignedTo options) in
    let createdBy := nullish_null (createdBy options) in
    let status := nullish (status options) s_included in
    existing <- lookup (fun db => findFirst_lemma db normalizedLemma) ;;
    match existing with
    | Some _ => throw (YaExiste normalizedLemma)
    | None =>
      wordRecord <-
        stmt (fun db =>
                insert_word db now
                  {| wi_lemma := normalizedLemma;
                     wi_root := or_null (Val normalizedRoot);
                     wi_letter := letter;
                     wi_status := Some status;
                     wi_createdBy := createdBy;
                     wi_assignedTo := assignedTo |}) ;;
      for_of (values newWord) (insertMeaning now (w_id wordRecord)) ;;;
      ret (mkCreated (w_id wordRecord) normalizedLemma letter)
    end
  end.

End WithBuiltins.

End Mutations.
Import Mutations.

(* ================================================================== *)
(** ** The search page controller
       (module [components/search/search-page])                        *)
(* ================================================================== *)

Module SearchPage.

(** [LocalSearchFilters]: one list of selected values per filter
    category, as the component reads it ([filters.categories],
    [filters.origins], [filters.letters], [filters.dictionaries] and
    [filters[key]] for each marker key). *)
Record LocalSearchFilters : Type := mkFilters {
  categories : list jsstring;
  origins : list jsstring;
  letters : list jsstring;
  dictionaries : list jsstring;
  markers : Markers (list jsstring)
}.

(** [SearchState] of [hooks/useSearchState]. *)
Record SearchState : Type := mkSearchState {
  ss_query : jsstring;
  ss_filters : LocalSearchFilters;
  ss_status : jsstring;
  ss_assignedTo : list jsstring
}.

Fixpoint values_eqb (a b : list jsstring) : bool :=
  match a, b with
  | [], [] => true
  | x :: a', y :: b' => str_eqb x y && values_eqb a' b'
  | _, _ => false
  end.

(** Modelled from the spec: [filtersChanged] of [lib/search-utils], which
    is not among the sources.  Two filter objects differ when some
    category holds different contents; the comparison is structural per
    filter category, not by reference. *)
Definition filtersChanged (a b : LocalSearchFilters) : bool :=
  negb (values_eqb (categories a) (categories b))
  || negb (values_eqb (origins a) (origins b))
  || negb (values_eqb (letters a) (letters b))
  || negb (values_eqb (dictionaries a) (dictionaries b))
  || existsb (fun key => negb (values_eqb (marker_get (markers a) key)
                                          (marker_get (markers b) key)))
             MEANING_MARKER_KEYS.

(** Modelled from the spec: [cloneFilters] of [lib/search-utils], which is
    not among the sources: a fresh object with the same contents. *)
Definition cloneFilters (f : LocalSearchFilters) : LocalSearchFilters :=
  mkFilters (categories f) (origins f) (letters f) (dictionaries f) (markers f).

(** What a state updater hands back: the very object it received
    ([return prev]) or a newly built one.  Only the second makes the state
    hook store a new state. *)
Inductive update : Type :=
| Same
| Replaced (next : SearchState).

Definition commit (prev : SearchState) (u : update) : SearchState :=
  match u with
  | Same => prev
  | Replaced next => next
  end.

Definition stateHasCriteria (state : SearchState) (includeEditorFilters : bool)
  : bool :=
  Nat.ltb 0 (length (ss_query state))
  || Nat.ltb 0 (length (categories (ss_filters state)))
  || Nat.ltb 0 (length (origins (ss_filters state)))
  || Nat.ltb 0 (length (letters (ss_filters state)))
  || Nat.ltb 0 (length (dictionaries (ss_filters state)))
  || existsb (fun key => Nat.ltb 0 (length (marker_get (markers (ss_filters state)) key)))
             MEANING_MARKER_KEYS
  || includeEditorFilters
     && (Nat.ltb 0 (length (ss_status state))
         || Nat.ltb 0 (length (ss_assignedTo state))).

Definition updateStateIfChanged (prev : SearchState) (query : jsstring)
  (filters : LocalSearchFilters) : update :=
  let hasFiltersChanged := filtersChanged (ss_filters prev) filters in
  let queryChanged := negb (str_eqb (ss_query prev) query) in
  if negb hasFiltersChanged && negb queryChanged then Same
  else
    Replaced
      {| ss_query := query;
         ss_filters := if hasFiltersChanged then cloneFilters filters
                       else ss_filters prev;
         ss_status := ss_status prev;
         ss_assignedTo := ss_assignedTo prev |}.

(** The updater that [handleSearchStateChange] passes to [updateState]. *)
Definition handleSearchStateChange (editorMode : bool) (prev : SearchState)
  (query : jsstring) (filters : LocalSearchFilters) : update :=
  if editorMode then
    let hasFiltersChanged := filtersChanged (ss_filters prev) filters in
    if negb hasFiltersChanged then Same
    else
      Replaced
        {| ss_query := ss_query prev;
           ss_filters := cloneFilters filters;
           ss_status := ss_status prev;
           ss_assignedTo := ss_assignedTo prev |}
  else updateStateIfChanged prev query filters.

(** *** Results and the component's state *)

(** Modelled from the spec: [SearchResult] of [lib/definitions], which is
    not among the sources: a word's identity and lemma. *)
Record SearchResult : Type := mkSearchResult {
  sr_id : nat;
  sr_lemma : jsstring
}.

(** What [searchDictionary] resolves to. *)
Record SearchData : Type := mkSearchData {
  results : list SearchResult;
  total : Z;
  totalPages : Z;
  hasNext : bool;
  hasPrev : bool
}.

Record Pagination : Type := mkPagination {
  pg_totalPages : Z;
  pg_hasNext : bool;
  pg_hasPrev : bool
}.

(** The refs and state cells of [SearchPage] that [executeSearch] touches.
    [latestRequestRef] counts the searches started (it starts at 0 and
    only ever grows by one, so a natural number holds it exactly);
    [savedFilters] is what [saveFilters] last stored. *)
Record Page : Type := mkPage {
  latestRequestRef : nat;
  searchState : SearchState;
  searchResults : list SearchResult;
  isLoading : bool;
  hasSearched : bool;
  totalResults : Z;
  currentPage : Z;
  lastExecutedQuery : jsstring;
  pagination : Pagination;
  savedFilters : option SearchState
}.

(** The state of a freshly mounted page. *)
Definition initial_page (s : SearchState) (editorMode : bool) : Page :=
  {| latestRequestRef := 0;
     searchState := s;
     searchResults := [];
     isLoading := stateHasCriteria s editorMode;
     hasSearched := false;
     totalResults := 0;
     currentPage := 1;
     lastExecutedQuery := [];
     pagination := mkPagination 0 false false;
     savedFilters := None |}.

(** What the page shows of a search. *)
Record Display : Type := mkDisplay {
  d_results : list SearchResult;
  d_total : Z;
  d_pagination : Pagination;
  d_page : Z;
  d_query : jsstring
}.

Definition display (p : Page) : Display :=
  mkDisplay (searchResults p) (totalResults p) (pagination p) (currentPage p)
            (lastExecutedQuery p).

(** *** Setters *)

Definition set_latestRequestRef (n : nat) (p : Page) : Page :=
  mkPage n (searchState p) (searchResults p) (isLoading p) (hasSearched p)
    (totalResults p) (currentPage p) (lastExecutedQuery p) (pagination p)
    (savedFilters p).

(** Modelled from the spec: [updateState] of [hooks/useSearchState], which
    is not among the sources: it applies the updater to the canonical
    search state. *)
Definition updateState (f : SearchState -> update) (p : Page) : Page :=
  mkPage (latestRequestRef p) (commit (searchState p) (f (searchState p)))
    (searchResults p) (isLoading p) (hasSearched p)
    (totalResults p) (currentPage p) (lastExecutedQuery p) (pagination p)
    (savedFilters p).

Definition setSearchResults (r : list SearchResult) (p : Page) : Page :=
  mkPage (latestRequestRef p) (searchState p) r (isLoading p) (hasSearched p)
    (totalResults p) (currentPage p) (lastExecutedQuery p) (pagination p)
    (savedFilters p).

Definition setIsLoading (b : bool) (p : Page) : Page :=
  mkPage (latestRequestRef p) (searchState p) (searchResults p) b (hasSearched p)
    (totalResults p) (currentPage p) (lastExecutedQuery p) (pagination p)
    (savedFilters p).

Definition setHasSearched (b : bool) (p : Page) : Page :=
  mkPage (latestRequestRef p) (searchState p) (searchResults p) (isLoading p) b
    (totalResults p) (currentPage p) (lastExecutedQuery p) (pagination p)
    (savedFilters p).

Definition setTotalResults (n : Z) (p : Page) : Page :=
  mkPage (latestRequestRef p) (searchState p) (searchResults p) (isLoading p)
    (hasSearched p) n (currentPage p) (lastExecutedQuery p) (pagination p)
    (savedFilters p).

Definition setCurrentPage (n : Z) (p : Page) : Page :=
  mkPage (latestRequestRef p) (searchState p) (searchResults p) (isLoading p)
    (hasSearched p) (totalResults p) n (lastExecutedQuery p) (pagination p)
    (savedFilters p).

Definition setLastExecutedQuery (q : jsstring) (p : Page) : Page :=
  mkPage (latestRequestRef p) (searchState p) (searchResults p) (isLoading p)
    (hasSearched p) (totalResults p) (currentPage p) q (pagination p)
    (savedFilters p).

Definition setPagination (g : Pagination) (p : Page) : Page :=
  mkPage (latestRequestRef p) (searchState p) (searchResults p) (isLoading p)
    (hasSearched p) (totalResults p) (currentPage p) (lastExecutedQuery p) g
    (savedFilters p).

(** Modelled from the spec: [saveFilters] of [hooks/useSearchState], which
    is not among the sources: it keeps the given state as the saved
    filters. *)
Definition saveFilters (s : SearchState) (p : Page) : Page :=
  mkPage (latestRequestRef p) (searchState p) (searchResults p) (isLoading p)
    (hasSearched p) (totalResults p) (currentPage p) (lastExecutedQuery p)
    (pagination p) (Some s).

End SearchPage.
Import SearchPage.

(* ================================================================== *)
(** ** [executeSearch]                                                 *)
(* ================================================================== *)

Module Controller.

(** The reason a [searchDictionary] promise is rejected with. *)
Inductive exn : Type :=
| SearchFailed (reason : jsstring).

(** How a block of statements ends: it runs to its end, it leaves the
    function by [return], or it throws. *)
Inductive completion (A : Type) : Type :=
| Normal (a : A)
| Return
| Throw (e : exn).
Arguments Return {A}.
Arguments Throw {A} e.

(** A block of the component's code, acting on its state. *)
Definition Cmd (A : Type) : Type := Page -> completion A * Page.

Definition skip : Cmd unit := fun p => (Normal tt, p).

Definition set (f : Page -> Page) : Cmd unit := fun p => (Normal tt, f p).

Definition read (A : Type) (f : Page -> A) : Cmd A := fun p => (Normal (f p), p).

Definition return_ {A : Type} : Cmd A := fun p => (Return, p).

(** [await] of a promise that has settled with [o]. *)
Definition await (A : Type) (o : exn + A) : Cmd A :=
  fun p =>
    match o with
    | inl e => (Throw e, p)
    | inr a => (Normal a, p)
    end.

Definition seq (A B : Type) (c : Cmd A) (k : A -> Cmd B) : Cmd B :=
  fun p =>
    match c p with
    | (Normal a, p') => k a p'
    | (Return, p') => (Return, p')
    | (Throw e, p') => (Throw e, p')
    end.

Local Notation "x <- c ;; k" := (seq c (fun x => k))
  (at level 61, c at next level, right associativity).
Local Notation "c ;;; k" := (seq c (fun _ => k))
  (at level 61, right associativity).

(** [try { body } catch { handler } finally { fin }]: the handler runs on a
    throw of the body, [fin] runs in every case, and the statement ends as
    the body (or the handler) did unless [fin] itself returns or throws. *)
Definition try_catch_finally (body : Cmd unit) (handler : exn -> Cmd unit)
  (fin : Cmd unit) : Cmd unit :=
  fun p =>
    let (c1, p1) := body p in
    let (c2, p2) :=
      match c1 with
      | Throw e => handler e p1
      | _ => (c1, p1)
      end in
    let (c3, p3) := fin p2 in
    match c3 with
    | Normal _ => (c2, p3)
    | _ => (c3, p3)
    end.

(** The locals of one call of [executeSearch] that its continuation after
    the [await] still refers to. *)
Record Pending : Type := mkPending {
  requestId : nat;
  query : jsstring;
  filters : LocalSearchFilters;
  page : Z;
  nextStateSnapshot : option SearchState
}.

(** [executeSearch({ query, filters, page = 1 })] up to its [await]: the
    request takes the next token, the page shows as loading, and the
    search state takes the query and filters. *)
Definition executeSearch_call (query : jsstring) (filters : LocalSearchFilters)
  (page : option Z) (p : Page) : Page * Pending :=
  let requestId := latestRequestRef p + 1 in
  let p1 := setIsLoading true (set_latestRequestRef requestId p) in
  let next :=
    commit (searchState p1) (updateStateIfChanged (searchState p1) query filters) in
  let p2 := updateState (fun prev => updateStateIfChanged prev query filters) p1 in
  (p2,
   mkPending requestId query filters
     (match page with Some n => n | None => 1%Z end) (Some next)).

(** [executeSearch] from its [await] on, when the promise of
    [searchDictionary] has settled with [outcome]. *)
Definition executeSearch_resume (k : Pending) (outcome : exn + SearchData)
  : Cmd unit :=
  try_catch_finally
    (searchData <- await outcome ;;
     latest <- read latestRequestRef ;;
     if negb (Nat.eqb (requestId k) latest) then return_
     else
       set (setSearchResults (results searchData)) ;;;
       set (setTotalResults (total searchData)) ;;;
       set (setPagination (mkPagination (totalPages searchData)
                             (hasNext searchData) (hasPrev searchData))) ;;;
       set (setCurrentPage (page k)) ;;;
       set (setLastExecutedQuery (query k)))
    (fun _ =>
     latest <- read latestRequestRef ;;
     if negb (Nat.eqb (requestId k) latest) then return_
     else
       set (setSearchResults []) ;;;
       set (setTotalResults 0) ;;;
       set (setPagination (mkPagination 0 false false)))
    (latest <- read latestRequestRef ;;
     if Nat.eqb (requestId k) latest then
       set (setHasSearched true) ;;;
       set (setIsLoading false) ;;;
       match nextStateSnapshot k with
       | Some s => set (saveFilters s)
       | None => skip
       end
     else skip).

(** The promise [executeSearch] returns is rejected exactly when its body
    ends by a throw. *)
Definition rejects (A : Type) (c : completion A) : bool :=
  match c with
  | Throw _ => true
  | _ => false
  end.

(** *** Runs of the page *)

(** What happens to the page: a search is started, or the promise of a
    started search settles. *)
Inductive event : Type :=
| Call (query : jsstring) (filters : LocalSearchFilters) (page : option Z)
| Settle (k : Pending) (outcome : exn + SearchData).

Definition step (p : Page) (e : event) : Page :=
  match e with
  | Call q f n => fst (executeSearch_call q f n p)
  | Settle k o => snd (executeSearch_resume k o p)
  end.

Definition run (p : Page) (evs : list event) : Page := fold_left step evs p.

(** The tokens given to the searches started along a run, oldest first. *)
Fixpoint tokens (p : Page) (evs : list event) : list nat :=
  match evs with
  | [] => []
  | e :: evs' =>
    match e with
    | Call q f n => requestId (snd (executeSearch_call q f n p)) :: tokens (step p e) evs'
    | Settle _ _ => tokens (step p e) evs'
    end
  end.

(** A settling that belongs to a search other than the one with token
    [t]. *)
Definition settles_other (t : nat) (e : event) : Prop :=
  match e with
  | Call _ _ _ => False
  | Settle k _ => requestId k <> t
  end.

(** The page together with the store its searches read.  No step of the
    controller reaches the store. *)
Record World : Type := mkWorld {
  store : DB;
  client : Page
}.

Definition world_step (w : World) (e : event) : World :=
  mkWorld (store w) (step (client w) e).

End Controller.
Import Controller.

(* ================================================================== *)
(** ** Notes and the deletion of a word
       ([src/lib/schema.ts], [src/lib/editor-mutations.ts])            *)
(* ================================================================== *)

Module Notes.

(** A row of [notes]. *)
Record NoteRow : Type := mkNoteRow {
  n_id : nat;
  n_wordId : nat;
  n_userId : option nat;
  n_note : jsstring;
  n_resolved : bool;
  n_createdAt : Z
}.

(** The store together with the [notes] table and its sequence. *)
Record Tables : Type := mkTables {
  base : DB;
  notes : list NoteRow;
  notes_id_seq : nat
}.

Definition empty_tables (us : list nat) : Tables :=
  mkTables (empty_db us) [] 0.

(** A mutation of the other tables, run on the whole store. *)
Definition lift (A : Type) (m : M A) (t : Tables) : (error + A) * Tables :=
  let (r, d) := m (base t) in
  (r, mkTables d (notes t) (notes_id_seq t)).

(** [db.delete(words).where(eq(words.id, id))], with the cascades the
    schema declares: the meanings of the word go (and with them their
    examples), and so do its notes. *)
Definition delete_word (t : Tables) (id : nat) : Tables :=
  let d := delete_meanings (base t) id in
  mkTables
    (mkDB (users d)
          (filter (fun w => negb (Nat.eqb (w_id w) id)) (words d))
          (meanings d) (examples d)
          (words_id_seq d) (meanings_id_seq d) (examples_id_seq d))
    (filter (fun n => negb (Nat.eqb (n_wordId n) id)) (notes t))
    (notes_id_seq t).

Definition deleteWordByLemma (lemma : jsstring) (t : Tables)
  : (error + unit) * Tables :=
  match findFirst_lemma (base t) lemma with
  | None => (inl (WordNotFound lemma), t)
  | Some existingWord => (inr tt, delete_word t (w_id existingWord))
  end.

(** [db.insert(notes).values({ wordId, note, userId }).returning({ id })]:
    [resolved] takes its default [false], and a [userId] that is no user's
    key is rejected after the sequence value has been drawn. *)
Definition insert_note (t : Tables) (now : Z) (wordId : nat)
  (note : jsstring) (userId : option nat) : (violation + nat) * Tables :=
  let id := S (notes_id_seq t) in
  if fk_user (base t) userId then
    (inr id,
     mkTables (base t)
       (notes t ++ [mkNoteRow id wordId userId note false now]) id)
  else (inl ForeignKey, mkTables (base t) (notes t) id).

(** A note read with [with: { user: true }]: the row and the key of its
    author's row, when it has one. *)
Record CreatedNote : Type := mkCreatedNote {
  cn_note : NoteRow;
  cn_user : option nat
}.

(** [db.query.notes.findFirst({ where: eq(notes.id, id), with: { user: true } })] *)
Definition findFirst_note (t : Tables) (id : nat) : option CreatedNote :=
  match find (fun n => Nat.eqb (n_id n) id) (notes t) with
  | Some n =>
    Some (mkCreatedNote n
            match n_userId n with
            | Some u => find (Nat.eqb u) (users (base t))
            | None => None
            end)
  | None => None
  end.

(** What [addNoteToWord] throws: an error of the kinds the other
    mutations throw, or 'Failed to retrieve the created note'. *)
Inductive note_error : Type :=
| Thrown (e : error)
| FailedToRetrieve.

Definition addNoteToWord (now : Z) (lemma : jsstring) (noteValue : jsstring)
  (userId : option nat) (t : Tables) : (note_error + CreatedNote) * Tables :=
  match findFirst_lemma (base t) lemma with
  | None => (inl (Thrown (WordNotFound lemma)), t)
  | Some existingWord =>
    match insert_note t now (w_id existingWord) noteValue userId with
    | (inl v, t1) => (inl (Thrown (Rejected v)), t1)
    | (inr inserted, t1) =>
      match findFirst_note t1 inserted with
      | None => (inl FailedToRetrieve, t1)
      | Some created => (inr created, t1)
      end
    end
  end.

(** The notes of a word, in table order. *)
Definition notes_of (t : Tables) (wordId : nat) : list NoteRow :=
  filter (fun n => Nat.eqb (n_wordId n) wordId) (notes t).

(** Integrity of the whole store: that of [db_wf], word and note keys not
    above the last value of their sequence, and every meaning and note
    referring to a stored word. *)
Definition tables_wf (t : Tables) : bool :=
  db_wf (base t)
  && forallb (fun w => Nat.leb (w_id w) (words_id_seq (base t)))
             (words (base t))
  && forallb (fun m => existsb (fun w => Nat.eqb (w_id w) (m_wordId m))
                               (words (base t)))
             (meanings (base t))
  && forallb (fun n => Nat.leb (n_id n) (notes_id_seq t)
                       && existsb (fun w => Nat.eqb (w_id w) (n_wordId n))
                                  (words (base t)))
             (notes t).

End Notes.
Import Notes.

(* ================================================================== *)
(** ** The other handlers of the search page
       (module [components/search/search-page])                        *)
(* ================================================================== *)

Module Handlers.

(** The updaters that [handleStatusChange], [handleAssignedChange] and
    [clearAdditionalFilters] pass to [updateState]; each builds a new
    state object. *)
Definition handleStatusChange (value : jsstring) (prev : SearchState) : update :=
  Replaced
    {| ss_query := ss_query prev;
       ss_filters := ss_filters prev;
       ss_status := value;
       ss_assignedTo := ss_assignedTo prev |}.

Definition handleAssignedChange (values : list jsstring) (prev : SearchState)
  : update :=
  Replaced
    {| ss_query := ss_query prev;
       ss_filters := ss_filters prev;
       ss_status := ss_status prev;
       ss_assignedTo := values |}.

Definition clearAdditionalFilters (prev : SearchState) : update :=
  Replaced
    {| ss_query := ss_query prev;
       ss_filters := ss_filters prev;
       ss_status := [];
       ss_assignedTo := [] |}.

(** [handleManualSearch({ query, filters })], up to the [await] of the
    search it starts. *)
Definition handleManualSearch (query : jsstring) (filters : LocalSearchFilters)
  (p : Page) : Page * Pending :=
  let trimmedQuery := trim query in
  let normalizedFilters := cloneFilters filters in
  executeSearch_call trimmedQuery normalizedFilters (Some 1%Z) p.

(** [handlePageChange(page)]: nothing for a page outside
    [1 .. pagination.totalPages]; otherwise a search for the current query
    and filters on that page. *)
Definition handlePageChange (page : Z) (p : Page) : Page * option Pending :=
  if (page <? 1)%Z || (pg_totalPages (pagination p) <? page)%Z then (p, None)
  else
    let r := executeSearch_call (ss_query (searchState p))
               (ss_filters (searchState p)) (Some page) p in
    (fst r, Some (snd r)).

(** The page with the ref that remembers that the initial search has been
    started. *)
Record Component : Type := mkComponent {
  cells : Page;
  initialSearchTriggeredRef : bool
}.

Section ClearAll.

(** [clearAll] of [hooks/useSearchState], which is not among the sources:
    whatever it makes of the search state and of the saved filters, the
    only cells it can reach. *)
Variable clearAll :
  SearchState * option SearchState -> SearchState * option SearchState.

Definition handleClearAll (c : Component) : Component :=
  let p := cells c in
  let cleared := clearAll (searchState p, savedFilters p) in
  mkComponent
    (mkPage (latestRequestRef p) (fst cleared) [] false false 0 1 []
       (mkPagination 0 false false) (snd cleared))
    false.

End ClearAll.

(** The second mount effect, which starts the initial search in editor
    mode. *)
Definition editorSearchEffect (editorMode : bool) (c : Component)
  : Component * option Pending :=
  if negb editorMode then (c, None)
  else if hasSearched (cells c) then (c, None)
  else if initialSearchTriggeredRef c then (c, None)
  else if negb (stateHasCriteria (searchState (cells c)) editorMode)
  then (c, None)
  else
    let r := executeSearch_call (ss_query (searchState (cells c)))
               (ss_filters (searchState (cells c))) None (cells c) in
    (mkComponent (fst r) true, Some (snd r)).

(** The first mount effect in editor mode, where the initial query and
    filters are those of the search state.  (In public mode it takes them
    from the URL parameters, through a hook that is not among the
    sources.) *)
Definition initialSearchEffect_editor (isInitialized : bool) (c : Component)
  : Component * option Pending :=
  if negb isInitialized then (c, None)
  else if hasSearched (cells c) || initialSearchTriggeredRef c then (c, None)
  else if negb (stateHasCriteria (searchState (cells c)) true)
  then (mkComponent (setIsLoading false (cells c)) (initialSearchTriggeredRef c),
        None)
  else
    let r := executeSearch_call (ss_query (searchState (cells c)))
               (ss_filters (searchState (cells c))) None (cells c) in
    (mkComponent (fst r) true, Some (snd r)).

(** Both effects, in the order the component declares them, as they run
    after a render in editor mode.  The second reads the values of the
    same render, which the first leaves as they are unless it sets the
    ref. *)
Definition mountEffects_editor (isInitialized : bool) (c : Component)
  : Component * list Pending :=
  let r1 := initialSearchEffect_editor isInitialized c in
  let r2 := editorSearchEffect true (fst r1) in
  (fst r2,
   match snd r1 with Some k => [k] | None => [] end
   ++ match snd r2 with Some k => [k] | None => [] end).

End Handlers.
Import Handlers.

(* ================================================================== *)
(** ** The dropdown ([src/components/common/dropdown.tsx])             *)
(* ================================================================== *)

Module Dropdown.

Record Option : Type := mkOption {
  value : jsstring;
  label : jsstring
}.

(** The [value] prop in multiple mode: a string or an array of strings. *)
Inductive Value : Type :=
| One (v : jsstring)
| Several (vs : list jsstring).

(** The [multiple] and [value] props.  In single mode the value is a
    string, as the cast [value as string] of the source takes it to be. *)
Inductive Mode : Type :=
| SingleSelect (value : jsstring)
| MultiSelect (value : Value).

(** [xs.includes(x)] on an array of strings. *)
Definition includes (xs : list jsstring) (x : jsstring) : bool :=
  existsb (fun y => str_eqb y x) xs.

Definition selectedValues (mode : Mode) : list jsstring :=
  match mode with
  | MultiSelect (Several vs) => vs
  | MultiSelect (One _) => []
  | SingleSelect [] => []
  | SingleSelect v => [v]
  end.

(** [s.startsWith(sub)] and [s.includes(sub)] on strings. *)
Fixpoint starts_with (sub s : jsstring) : bool :=
  match sub, s with
  | [], _ => true
  | x :: sub', y :: s' => N.eqb x y && starts_with sub' s'
  | _ :: _, [] => false
  end.

Fixpoint str_includes (s sub : jsstring) : bool :=
  starts_with sub s
  || match s with
     | [] => false
     | _ :: s' => str_includes s' sub
     end.

(** The state cells of the component. *)
Record Local : Type := mkLocal {
  isOpen : bool;
  searchTerm : jsstring
}.

(** What the component passes to [onChange]. *)
Inductive Emitted : Type :=
| EmitOne (v : jsstring)
| EmitSeveral (vs : list jsstring).

Definition handleSelect (disabled : bool) (mode : Mode) (val : jsstring)
  (st : Local) : option Emitted * Local :=
  if disabled then (None, st)
  else
    match mode with
    | MultiSelect _ =>
      let newValues :=
        if includes (selectedValues mode) val
        then filter (fun v => negb (str_eqb v val)) (selectedValues mode)
        else selectedValues mode ++ [val] in
      (Some (EmitSeveral newValues), st)
    | SingleSelect _ => (Some (EmitOne val), mkLocal false [])
    end.


(** The handler of [useDropdownClose]: a press outside the component
    closes it and resets the search term. *)
Definition handleClickOutside (inside : bool) (st : Local) : Local :=
  if inside then st else mkLocal false [].

Section WithLowerCase.

Variable toLowerCase : jsstring -> jsstring.

Definition filteredOptions (searchable : bool) (options : list Option)
  (st : Local) : list Option :=
  if searchable
  then filter (fun o => str_includes (toLowerCase (label o))
                                     (toLowerCase (searchTerm st)))
              options
  else options.

End WithLowerCase.


End Dropdown.

(* ================================================================== *)
(** ** The add-word form ([src/components/search/add-word-modal.tsx])  *)
(* ================================================================== *)

Module AddWordModal.

(** The state cells of the form. *)
Record Form : Type := mkForm {
  newWordRoot : jsstring;
  newWordLemma : jsstring;
  newWordLetter : jsstring;
  newWordAssignedTo : list jsstring
}.

(** The JSON body of the request. *)
Record Body (U : Type) : Type := mkBody {
  body_lemma : jsstring;
  body_root : jsstring;
  body_letter : opt jsstring;
  body_assignedTo : option Z;
  body_values : list Meaning;
  body_createdBy : U
}.

(** What [handleAddWord] does before any response: it alerts that the
    lemma is required, or posts a body to the path of the lemma. *)
Inductive Submission (U : Type) : Type :=
| Alerted
| Posted (pathLemma : jsstring) (body : Body U).
Arguments Alerted {U}.

Section WithBuiltins.

Variable U : Type.

(** [String.prototype.toLowerCase]. *)
Variable toLowerCase : jsstring -> jsstring.

(** [parseInt(s, 10)] followed by [Number.isInteger]: the integer read, or
    nothing when the result is [NaN] or not finite. *)
Variable parseInt10 : jsstring -> option Z.

(** [currentId] of [useUserRole]. *)
Variable createdById : U.

(** [autoLetterForLemma] and [selectedLetter], which the letter dropdown
    shows. *)
Definition autoLetterForLemma (f : Form) : jsstring :=
  toLowerCase
    match trim (newWordLemma f) with
    | c :: _ => [c]
    | [] => []
    end.

Definition selectedLetter (f : Form) : jsstring :=
  match newWordLetter f with
  | [] => autoLetterForLemma f
  | l => l
  end.

Definition handleAddWord (f : Form) : Submission U :=
  let trimmedLemma := trim (newWordLemma f) in
  match trimmedLemma with
  | [] => Alerted
  | c :: _ =>
    let assignedToValue :=
      match newWordAssignedTo f with
      | x :: _ => parseInt10 x
      | [] => None
      end in
    let trimmedRoot := trim (newWordRoot f) in
    let autoLetter := toLowerCase [c] in
    let trimmedLetter := toLowerCase (trim (newWordLetter f)) in
    let letterToSend :=
      match trimmedLetter with
      | [] => autoLetter
      | l => l
      end in
    Posted trimmedLemma
      {| body_lemma := trimmedLemma;
         body_root := trimmedRoot;
         body_letter := match letterToSend with
                        | [] => Undefined
                        | l => Val l
                        end;
         body_assignedTo := assignedToValue;
         body_values := [];
         body_createdBy := createdById |}
  end.

End WithBuiltins.

End AddWordModal.

(* ================================================================== *)
(** ** Vocabulary of the properties                                    *)
(* ================================================================== *)

Module Vocabulary.

(** The examples a submitted meaning carries: none when the field is
    [undefined] or [null]. *)
Definition submitted_examples (def : Meaning) : list Example :=
  match def_examples def with
  | Val l => l
  | _ => []
  end.

(** The optional fields of an example other than [publication], each with
    the column it is stored in. *)
Definition other_fields
  : list ((Example -> opt jsstring) * (ExampleValues -> option jsstring)) :=
  [(ex_author, ev_author); (ex_year, ev_year); (ex_format, ev_format);
   (ex_title, ev_title); (ex_date, ev_date); (ex_city, ev_city);
   (ex_editorial, ev_editorial); (ex_volume, ev_volume);
   (ex_number, ev_number); (ex_page, ev_page); (ex_doi, ev_doi);
   (ex_url, ev_url)].

(** What is stored for a submitted meaning: its column values and the
    column values of its examples. *)
Definition stored_form (def : Meaning) : MeaningValues * list ExampleValues :=
  (meaningValues def, normalizeAndCleanExamples (def_examples def)).

(** The [WordUpdate] that [updateWordByLemma] sends. *)
Definition updateData (now : Z) (updatedWord : Word) (options : UpdateOptions)
  : WordUpdate :=
  {| wu_lemma := lemma updatedWord;
     wu_root := or_null (root updatedWord);
     wu_updatedAt := now;
     wu_status := uo_status options;
     wu_assignedTo := uo_assignedTo options |}.

End Vocabulary.
Import Vocabulary.

(* ================================================================== *)
(** ** Concrete data for the worked examples                           *)
(* ================================================================== *)

Module Examples.

Definition s_X : jsstring := [88%N].
Definition s_Z : jsstring := [90%N].
Definition s_z : jsstring := [122%N].
Definition s_blank : jsstring := [32%N; 9%N].

(** An example that carries only the legacy [source] field. *)
Definition example_legacy : Example :=
  mkExample [101%N] Undefined Undefined Undefined (Val s_X) Undefined Undefined
    Undefined Undefined Undefined Undefined Undefined Undefined Undefined
    Undefined.

(** A meaning with the given number and text, an empty [origin] and one
    legacy example. *)
Definition meaning_n (n : Z) (text : jsstring) : Meaning :=
  mkMeaning n (Val []) text Undefined Undefined Null Undefined Undefined
    (markers_all Undefined) (Val [example_legacy]).

Definition word_casa : Word := mkWord s_casa Undefined [].
Definition word_blank : Word := mkWord s_blank Undefined [].

Definition options_Z : CreateWordOptions :=
  mkCreateWordOptions Undefined Undefined (Val s_Z) Undefined.

Definition options_draft : CreateWordOptions :=
  mkCreateWordOptions Undefined Undefined Undefined (Val s_draft).

Definition no_update_options : UpdateOptions := mkUpdateOptions None None.

(** A store holding "casa" with two meanings, made by [createWord]. *)
Definition store_casa : DB :=
  snd (createWord toLowerCase_latin1 0
         (mkWord s_casa Undefined [meaning_n 1 [109%N]; meaning_n 2 [110%N]])
         no_options (empty_db [])).

(** An edit of "casa" whose second meaning has a number the [integer]
    column cannot hold. *)
Definition edit_out_of_range : Word :=
  mkWord s_casa Undefined
    [meaning_n 1 [112%N]; meaning_n 2147483648 [113%N]; meaning_n 3 [114%N]].


(** A store in which an edit has left a word with the empty lemma:
    [updateWordByLemma] stores the submitted lemma as it is. *)
Definition store_empty_lemma : DB :=
  snd (updateWordByLemma 1 s_casa (mkWord [] Undefined []) no_update_options
         store_casa).

(** The edit with the unstorable number, run on [store_casa]. *)
Definition failed_edit : (error + unit) * DB :=
  updateWordByLemma 5 s_casa edit_out_of_range no_update_options store_casa.

(** One meaning inserted for word 1 into an empty store. *)
Definition one_insert : (error + unit) * DB :=
  insertMeaning 0 1 (meaning_n 1 [109%N]) (empty_db []).

(** *** A page and two overlapping searches *)

Definition s_A : jsstring := [65%N].
Definition s_B : jsstring := [66%N].

Definition no_filters : LocalSearchFilters :=
  mkFilters [] [] [] [] (markers_all []).

Definition filters_c : LocalSearchFilters :=
  mkFilters [[115%N]] [] [s_a] [] (markers_all []).

Definition state_c : SearchState := mkSearchState s_A filters_c [] [].

(** A public page mounted with no criteria. *)
Definition page0 : Page :=
  initial_page (mkSearchState [] no_filters [] []) false.

(** The search for "A" is started, then the search for "B". *)
Definition pageA : Page := fst (executeSearch_call s_A no_filters None page0).
Definition requestA : Pending :=
  snd (executeSearch_call s_A no_filters None page0).
Definition pageB : Page :=
  fst (executeSearch_call s_B no_filters (Some 2%Z) pageA).
Definition requestB : Pending :=
  snd (executeSearch_call s_B no_filters (Some 2%Z) pageA).

Definition dataA : SearchData :=
  mkSearchData [mkSearchResult 1 s_A] 1 1 false false.
Definition dataB : SearchData :=
  mkSearchData [mkSearchResult 2 s_B; mkSearchResult 3 s_B] 120 3 true true.

Definition failure : exn := SearchFailed [].

(** "B" is answered, then the search for "A" fails. *)
Definition page_B_then_A_fails : Page :=
  run pageB [Settle requestB (inr dataB); Settle requestA (inl failure)].

End Examples.
Import Examples.

(* ================================================================== *)
(** ** Further vocabulary and data                                     *)
(* ================================================================== *)

Module Vocabulary2.

(** The values [createWord] passes to [db.insert(words)]. *)
Definition wordInsert (lower : jsstring -> jsstring) (newWord : Word)
  (options : CreateWordOptions) : WordInsert :=
  {| wi_lemma := trim (lemma newWord);
     wi_root := or_null (Val (trim (or_string (root newWord) [])));
     wi_letter := normalizedLetter lower (trim (lemma newWord)) options;
     wi_status := Some (nullish (status options) s_included);
     wi_createdBy := nullish_null (createdBy options);
     wi_assignedTo := nullish_null (assignedTo options) |}.

(** No two stored words have the same lemma. *)
Definition lemmas_distinct (db : DB) : Prop := NoDup (map w_lemma (words db)).

(** The word rows other than those with key [id]. *)
Definition other_words (db : DB) (id : nat) : list WordRow :=
  filter (fun w => negb (Nat.eqb (w_id w) id)) (words db).

End Vocabulary2.
Import Vocabulary2.

Module Examples2.

Definition s_perro : jsstring := [112; 101; 114; 114; 111]%N.
Definition s_nota : jsstring := [110; 111; 116; 97]%N.

(** A store with one user, and the word "perro" with two meanings. *)
Definition word_perro : Word :=
  mkWord s_perro (Val s_casa) [meaning_n 1 [109%N]; meaning_n 2 [110%N]].

Definition tables0 : Tables := empty_tables [7].

Definition created_casa : (error + Created) * Tables :=
  lift (createWord toLowerCase_latin1 0
          (mkWord s_casa Undefined [meaning_n 1 [109%N]]) no_options)
       tables0.

Definition tables_casa : Tables := Eval vm_compute in snd created_casa.

Definition created_perro : (error + Created) * Tables :=
  lift (createWord toLowerCase_latin1 1 word_perro no_options) tables_casa.

Definition tables_two : Tables := Eval vm_compute in snd created_perro.

(** "perro" with a second meaning that cannot be stored. *)
Definition word_perro_bad : Word :=
  mkWord s_perro Undefined [meaning_n 1 [109%N]; meaning_n 2147483648 [110%N]].

Definition noted : (note_error + CreatedNote) * Tables :=
  addNoteToWord 2 s_perro s_nota (Some 7) tables_two.

Definition tables_noted : Tables := Eval vm_compute in snd noted.

(** An edit of "perro" that fails at its second meaning. *)
Definition edit_perro : (error + unit) * DB :=
  updateWordByLemma 5 s_perro edit_out_of_range no_update_options
    (base tables_two).

(** "perro" renamed to "casa-like" lemma [s_X], with every meaning kept
    out. *)
Definition rename_perro : (error + unit) * DB :=
  updateWordByLemma 6 s_perro (mkWord s_X Null []) no_update_options
    (base tables_two).

End Examples2.
Import Examples2.

Module Examples3.

(** A page that shows page 2 of 3 of the results for "A". *)
Definition page_results : Page :=
  mkPage 4 state_c [mkSearchResult 1 s_A] false true 120 2 s_A
    (mkPagination 3 true true) None.

Definition component_results : Component := mkComponent page_results true.

(** A freshly mounted editor page whose saved state has criteria. *)
Definition component_mounted : Component :=
  mkComponent (initial_page state_c true) false.

(** A [clearAll] that empties the search state and keeps the saved
    filters. *)
Definition clear_state (x : SearchState * option SearchState)
  : SearchState * option SearchState :=
  (mkSearchState [] no_filters [] [], snd x).

Definition padded_A : jsstring := [32%N; 65%N; 32%N].

Definition option_a : Dropdown.Option := Dropdown.mkOption s_a s_A.
Definition option_z : Dropdown.Option := Dropdown.mkOption s_z s_Z.

Definition form_casa : AddWordModal.Form :=
  AddWordModal.mkForm [] [32%N; 99%N; 97%N; 115%N; 97%N; 32%N] [] [].

End Examples3.
Import Examples3.

(* ================================================================== *)
(** ** Properties of the mutation service                              *)
(* ================================================================== *)

Unset Implicit Arguments.

(** *** Strings *)

Lemma str_eqb_refl (s : jsstring) : str_eqb s s = true.
Proof.
  induction s as [|c s IH]; simpl; [reflexivity|].
  now rewrite N.eqb_refl.
Qed.

Lemma str_eqb_eq (a b : jsstring) : str_eqb a b = true <-> a = b.
Proof.
  revert b; induction a as [|x a IH]; intros [|y b]; simpl; split;
    try easy.
  - intros H. apply andb_true_iff in H as [Hx Hr].
    apply N.eqb_eq in Hx. apply IH in Hr. congruence.
  - intros H. injection H as -> ->. rewrite N.eqb_refl. now apply IH.
Qed.

Lemma trimStart_blank (s : jsstring) :
  forallb is_ws s = true -> trimStart s = [].
Proof.
  induction s as [|c s IH]; simpl; [reflexivity|].
  intros H. apply andb_true_iff in H as [Hc Hs].
  rewrite Hc. now apply IH.
Qed.

Lemma trim_blank (s : jsstring) : forallb is_ws s = true -> trim s = [].
Proof.
  intros H. unfold trim. now rewrite (trimStart_blank s H).
Qed.

(** *** Reading the words table *)

Lemma findFirst_lemma_present (db : DB) (l : jsstring) :
  (exists r, In r (words db) /\ w_lemma r = l) ->
  exists r, findFirst_lemma db l = Some r.
Proof.
  intros [r [Hin Hl]]. unfold findFirst_lemma.
  destruct (find _ (words db)) as [r'|] eqn:Hf; [now exists r'|].
  pose proof (find_none _ _ Hf r Hin) as Hno. simpl in Hno.
  rewrite Hl, str_eqb_refl in Hno. discriminate.
Qed.

(** *** [insertMeaning] and the loop over the submitted meanings touch
        only [meanings] and [examples] *)

Lemma insertMeaning_words (now : Z) (id : nat) (def : Meaning) (db : DB) :
  words (snd (insertMeaning now id def db)) = words db
  /\ users (snd (insertMeaning now id def db)) = users db
  /\ words_id_seq (snd (insertMeaning now id def db)) = words_id_seq db.
Proof.
  unfold insertMeaning, bind, stmt, insert_meaning, exec, ret.
  destruct (int4 _); simpl; [|auto].
  destruct (Nat.ltb _ _); simpl; auto.
Qed.

Lemma for_of_insertMeaning_words (now : Z) (id : nat) (defs : list Meaning) :
  forall db,
    words (snd (for_of defs (insertMeaning now id) db)) = words db
    /\ users (snd (for_of defs (insertMeaning now id) db)) = users db
    /\ words_id_seq (snd (for_of defs (insertMeaning now id) db))
       = words_id_seq db.
Proof.
  induction defs as [|def defs IH]; intros db; simpl; [auto|].
  unfold bind.
  pose proof (insertMeaning_words now id def db) as H1.
  destruct (insertMeaning now id def db) as [[e|u] db1]; simpl in *; [auto|].
  destruct (IH db1) as (Ha & Hb & Hc). destruct H1 as (H1a & H1b & H1c).
  repeat split; congruence.
Qed.

(** *** What a successful [createWord] has done *)

Lemma createWord_success (lower : jsstring -> jsstring) (now : Z)
  (newWord : Word) (options : CreateWordOptions) (db db' : DB) (r : Created) :
  createWord lower now newWord options db = (inr r, db') ->
  exists row db1,
    trim (lemma newWord) <> []
    /\ findFirst_lemma db (trim (lemma newWord)) = None
    /\ insert_word db now
         {| wi_lemma := trim (lemma newWord);
            wi_root := or_null (Val (trim (or_string (root newWord) [])));
            wi_letter := normalizedLetter lower (trim (lemma newWord)) options;
            wi_status := Some (nullish (status options) s_included);
            wi_createdBy := nullish_null (createdBy options);
            wi_assignedTo := nullish_null (assignedTo options) |}
       = (inr row, db1)
    /\ for_of (values newWord) (insertMeaning now (w_id row)) db1 = (inr tt, db')
    /\ r = mkCreated (w_id row) (trim (lemma newWord))
             (normalizedLetter lower (trim (lemma newWord)) options).
Proof.
  unfold createWord.
  destruct (trim (lemma newWord)) as [|c l] eqn:Et; [discriminate|].
  unfold bind, lookup, stmt, throw, ret.
  destruct (findFirst_lemma db (c :: l)) as [w|] eqn:Ef;
    [intros H; discriminate H|].
  destruct (insert_word db now _) as [[v|row] db1] eqn:Ei;
    [intros H; discriminate H|].
  destruct (for_of (values newWord) _ db1) as [[e|[]] db2] eqn:El;
    [intros H; discriminate H|].
  intros H. injection H as <- <-.
  exists row, db1. repeat split; try assumption; discriminate.
Qed.

Lemma insert_word_ok (db db1 : DB) (now : Z) (v : WordInsert) (row : WordRow) :
  insert_word db now v = (inr row, db1) ->
  words db1 = words db ++ [row]
  /\ w_id row = S (words_id_seq db)
  /\ w_lemma row = wi_lemma v
  /\ w_letter row = wi_letter v
  /\ w_status row = match wi_status v with
                    | Some s => s
                    | None => status_default
                    end.
Proof.
  unfold insert_word.
  destruct (fk_user db (wi_createdBy v) && fk_user db (wi_assignedTo v));
    [|discriminate].
  intros H. injection H as <- <-. simpl. auto.
Qed.

Lemma createWord_row (lower : jsstring -> jsstring) (now : Z)
  (newWord : Word) (options : CreateWordOptions) (db db' : DB) (r : Created) :
  createWord lower now newWord options db = (inr r, db') ->
  exists row,
    words db' = words db ++ [row]
    /\ w_id row = wordId r
    /\ w_lemma row = trim (lemma newWord)
    /\ w_letter row = normalizedLetter lower (trim (lemma newWord)) options
    /\ created_letter r = w_letter row
    /\ w_status row = nullish (status options) s_included.
Proof.
  intros H. apply createWord_success in H.
  destruct H as (row & db1 & _ & _ & Hi & Hl & ->).
  apply insert_word_ok in Hi. simpl in Hi.
  destruct Hi as (Hw & _ & Hlem & Hlet & Hst).
  exists row.
  pose proof (for_of_insertMeaning_words now (w_id row) (values newWord) db1)
    as (Hw' & _ & _).
  rewrite Hl in Hw'. simpl in Hw'. simpl.
  repeat split; congruence.
Qed.


(** *** Claims on [createWord] *)

(** C5.  A [createWord] call whose lemma is empty or made of white space
    only fails with the error for a missing lemma, which the specification
    classes as a ValidationError, and leaves the store exactly as it was:
    no word, meaning or example row is written. *)
Theorem createWord_blank_lemma_rejected :
  forall (lower : jsstring -> jsstring) (now : Z) (newWord : Word)
         (options : CreateWordOptions) (db : DB),
    forallb is_ws (lemma newWord) = true ->
    createWord lower now newWord options db = (inl LemaObligatorio, db)
    /\ kind_of LemaObligatorio = ValidationError.
Proof.
  intros lower now newWord options db H.
  unfold createWord. rewrite (trim_blank _ H). split; reflexivity.
Qed.

Lemma createWord_blank_lemma_rejected_witness :
  forallb is_ws (lemma word_blank) = true
  /\ createWord toLowerCase_latin1 0 word_blank no_options store_casa
     = (inl LemaObligatorio, store_casa)
  /\ kind_of LemaObligatorio = ValidationError.
Proof.
  split; [reflexivity|].
  apply (createWord_blank_lemma_rejected toLowerCase_latin1 0 word_blank
           no_options store_casa).
  reflexivity.
Defined.

(** C6, as stated, fails: the store [store_empty_lemma], reached through
    [createWord] and [updateWordByLemma], holds a word with the empty
    lemma; a [createWord] call with a blank lemma then has a trimmed lemma
    that exists as a word's lemma, and it fails with the error for a
    missing lemma, not with the one for a duplicate. *)
Lemma createWord_duplicate_of_empty_lemma :
  (exists r, In r (words store_empty_lemma)
             /\ w_lemma r = trim (lemma word_blank))
  /\ createWord toLowerCase_latin1 2 word_blank no_options store_empty_lemma
     = (inl LemaObligatorio, store_empty_lemma)
  /\ kind_of LemaObligatorio <> ConflictError.
Proof.
  split; [|split].
  - eexists. split; [left; reflexivity|reflexivity].
  - reflexivity.
  - discriminate.
Qed.

(** C6 (amended).  A [createWord] call whose trimmed lemma is not empty and
    is, code unit for code unit, the lemma of a stored word fails with the
    error for a duplicate lemma, which the specification classes as a
    ConflictError, and leaves the store exactly as it was: the existing row
    is unchanged and no row is written. *)
Theorem createWord_duplicate_lemma_rejected :
  forall (lower : jsstring -> jsstring) (now : Z) (newWord : Word)
         (options : CreateWordOptions) (db : DB),
    trim (lemma newWord) <> [] ->
    (exists r, In r (words db) /\ w_lemma r = trim (lemma newWord)) ->
    createWord lower now newWord options db
    = (inl (YaExiste (trim (lemma newWord))), db)
    /\ kind_of (YaExiste (trim (lemma newWord))) = ConflictError.
Proof.
  intros lower now newWord options db Hne Hex.
  destruct (findFirst_lemma_present db _ Hex) as [r Hr].
  unfold createWord.
  destruct (trim (lemma newWord)) as [|c l]; [congruence|].
  unfold bind, lookup, throw. rewrite Hr. split; reflexivity.
Qed.

Lemma createWord_duplicate_lemma_rejected_witness :
  trim (lemma word_casa) <> []
  /\ (exists r, In r (words store_casa) /\ w_lemma r = trim (lemma word_casa))
  /\ createWord toLowerCase_latin1 3 word_casa options_Z store_casa
     = (inl (YaExiste (trim (lemma word_casa))), store_casa)
  /\ kind_of (YaExiste (trim (lemma word_casa))) = ConflictError.
Proof.
  assert (H1 : trim (lemma word_casa) <> []) by discriminate.
  assert (H2 : exists r, In r (words store_casa)
                         /\ w_lemma r = trim (lemma word_casa)).
  { eexists. split; [left; reflexivity|reflexivity]. }
  split; [exact H1|]. split; [exact H2|].
  exact (createWord_duplicate_lemma_rejected toLowerCase_latin1 3 word_casa
           options_Z store_casa H1 H2).
Defined.




(** C10.  A successful [createWord] stores one new word row; when no
    status option is passed its status is 'included', which is not the
    default 'draft' that the schema declares for the column, and a status
    option that is passed is stored as it is. *)
Theorem createWord_status :
  forall (lower : jsstring -> jsstring) (now : Z) (newWord : Word)
         (options : CreateWordOptions) (db db' : DB) (r : Created),
    createWord lower now newWord options db = (inr r, db') ->
    exists row,
      words db' = words db ++ [row]
      /\ w_id row = wordId r
      /\ (status options = Undefined ->
          w_status row = s_included /\ w_status row <> status_default)
      /\ (forall s, status options = Val s -> w_status row = s).
Proof.
  intros lower now newWord options db db' r H.
  destruct (createWord_row _ _ _ _ _ _ _ H) as (row & Hw & Hid & _ & _ & _ & Hs).
  exists row. split; [assumption|]. split; [assumption|]. split.
  - intros E. rewrite Hs, E. split; [reflexivity|discriminate].
  - intros s E. rewrite Hs, E. reflexivity.
Qed.

Lemma createWord_status_witness :
  createWord toLowerCase_latin1 0 word_casa no_options (empty_db [])
  = (inr (mkCreated 1 s_casa [99%N]),
     snd (createWord toLowerCase_latin1 0 word_casa no_options (empty_db [])))
  /\ exists row,
       words (snd (createWord toLowerCase_latin1 0 word_casa no_options
                     (empty_db [])))
       = words (empty_db []) ++ [row]
       /\ w_id row = 1
       /\ (status no_options = Undefined ->
           w_status row = s_included /\ w_status row <> status_default)
       /\ (forall s, status no_options = Val s -> w_status row = s).
Proof.
  split; [reflexivity|].
  apply (createWord_status toLowerCase_latin1 0 word_casa no_options
           (empty_db []) _ (mkCreated 1 s_casa [99%N])).
  reflexivity.
Defined.

(** *** Lists *)

Lemma filter_none (A : Type) (f : A -> bool) (l : list A) :
  (forall x, In x l -> f x = false) -> filter f l = [].
Proof.
  induction l as [|a l IH]; simpl; intros H; [reflexivity|].
  rewrite (H a (or_introl eq_refl)). apply IH. intros x Hx. apply H. now right.
Qed.

Lemma filter_all (A : Type) (f : A -> bool) (l : list A) :
  (forall x, In x l -> f x = true) -> filter f l = l.
Proof.
  induction l as [|a l IH]; simpl; intros H; [reflexivity|].
  rewrite (H a (or_introl eq_refl)). f_equal. apply IH.
  intros x Hx. apply H. now right.
Qed.

(** *** Rows of one insert into [examples] *)

Lemma example_rows_values (next : nat) (now : Z) (mid : nat)
  (vs : list ExampleValues) :
  map e_values (example_rows next now mid vs) = vs.
Proof.
  revert next; induction vs as [|v vs IH]; intros next; simpl;
    [reflexivity|].
  now rewrite IH.
Qed.

Lemma example_rows_meaning (next : nat) (now : Z) (mid : nat)
  (vs : list ExampleValues) :
  forall e, In e (example_rows next now mid vs) -> e_meaningId e = mid.
Proof.
  revert next; induction vs as [|v vs IH]; intros next e; simpl;
    [contradiction|].
  intros [<-|H]; [reflexivity|]. now apply (IH (S next)).
Qed.

(** *** One [insertMeaning] *)

Lemma insertMeaning_failure (now : Z) (id : nat) (def : Meaning)
  (db db' : DB) (e : error) :
  insertMeaning now id def db = (inl e, db') ->
  int4 (def_number def) = false /\ e = Rejected IntegerOutOfRange /\ db' = db.
Proof.
  unfold insertMeaning, bind, stmt, insert_meaning, exec, ret. simpl.
  destruct (int4 (def_number def)).
  - destruct (Nat.ltb _ _); intros H; discriminate H.
  - intros H. injection H as <- <-. auto.
Qed.

Lemma insertMeaning_success (now : Z) (id : nat) (def : Meaning) (db db' : DB) :
  insertMeaning now id def db = (inr tt, db') ->
  int4 (def_number def) = true
  /\ db' =
     mkDB (users db) (words db)
       (meanings db
        ++ [mkMeaningRow (S (meanings_id_seq db)) id (meaningValues def) now now])
       (examples db
        ++ example_rows (S (examples_id_seq db)) now (S (meanings_id_seq db))
             (normalizeAndCleanExamples (def_examples def)))
       (words_id_seq db) (S (meanings_id_seq db))
       (examples_id_seq db
        + length (normalizeAndCleanExamples (def_examples def))).
Proof.
  unfold insertMeaning, bind, stmt, insert_meaning, exec, ret. simpl.
  destruct (int4 (def_number def)); [|intros H; discriminate H].
  destruct (normalizeAndCleanExamples (def_examples def)) as [|v vs]; simpl;
    intros H; injection H as <-; split; try reflexivity.
  unfold insert_examples; simpl. now rewrite app_nil_r, Nat.add_0_r.
Qed.

(** *** Integrity of the store *)

Lemma db_wf_iff (db : DB) :
  db_wf db = true <->
  (forall m, In m (meanings db) -> m_id m <= meanings_id_seq db)
  /\ (forall e, In e (examples db) ->
        exists m, In m (meanings db) /\ m_id m = e_meaningId e).
Proof.
  unfold db_wf. rewrite andb_true_iff, !forallb_forall. split.
  - intros [Hm He]. split.
    + intros m Hin. apply Nat.leb_le. now apply Hm.
    + intros e Hin. apply He in Hin. apply existsb_exists in Hin.
      destruct Hin as [m [Hmin Heq]]. apply Nat.eqb_eq in Heq. eauto.
  - intros [Hm He]. split.
    + intros m Hin. apply Nat.leb_le. now apply Hm.
    + intros e Hin. apply existsb_exists.
      destruct (He e Hin) as [m [Hmin Heq]]. exists m.
      split; [assumption|]. now apply Nat.eqb_eq.
Qed.

Lemma db_wf_example_bound (db : DB) :
  db_wf db = true ->
  forall e, In e (examples db) -> e_meaningId e <= meanings_id_seq db.
Proof.
  intros Hwf e Hin. apply db_wf_iff in Hwf. destruct Hwf as [Hm He].
  destruct (He e Hin) as [m [Hmin <-]]. now apply Hm.
Qed.

Lemma db_wf_empty (us : list nat) : db_wf (empty_db us) = true.
Proof. reflexivity. Qed.

Lemma db_wf_same_rows (db db1 : DB) :
  meanings db1 = meanings db -> examples db1 = examples db ->
  meanings_id_seq db1 = meanings_id_seq db ->
  db_wf db1 = db_wf db.
Proof. intros Hm He Hs. unfold db_wf. now rewrite Hm, He, Hs. Qed.

Lemma insertMeaning_step (now : Z) (id : nat) (def : Meaning) (db db' : DB) :
  db_wf db = true ->
  insertMeaning now id def db = (inr tt, db') ->
  db_wf db' = true
  /\ read_meanings db' id = read_meanings db id ++ [stored_form def]
  /\ meanings_id_seq db' = S (meanings_id_seq db)
  /\ exists row, meanings db' = meanings db ++ [row]
                 /\ m_id row = S (meanings_id_seq db).
Proof.
  intros Hwf H. apply insertMeaning_success in H. destruct H as [_ ->].
  pose proof (db_wf_example_bound db Hwf) as Hex.
  apply db_wf_iff in Hwf. destruct Hwf as [Hm He].
  set (mid := S (meanings_id_seq db)).
  set (vs := normalizeAndCleanExamples (def_examples def)).
  set (new := example_rows (S (examples_id_seq db)) now mid vs).
  split; [|split; [|split; [reflexivity|eexists; split; reflexivity]]].
  - apply db_wf_iff. simpl. split.
    + intros m Hin. apply in_app_or in Hin. destruct Hin as [Hin|[<-|[]]].
      * apply Hm in Hin. lia.
      * simpl. lia.
    + intros e Hin. apply in_app_or in Hin. destruct Hin as [Hin|Hin].
      * destruct (He e Hin) as [m [Hmin Heq]]. exists m.
        split; [apply in_or_app; now left|assumption].
      * eexists. split; [apply in_or_app; right; left; reflexivity|].
        simpl. symmetry. exact (example_rows_meaning _ _ _ _ e Hin).
  - unfold read_meanings, meanings_of, examples_of. simpl.
    rewrite filter_app, map_app. simpl. rewrite Nat.eqb_refl. simpl.
    f_equal.
    + apply map_ext_in. intros m Hin. f_equal. f_equal.
      apply filter_In in Hin. destruct Hin as [Hin _].
      rewrite filter_app. fold new.
      rewrite (filter_none _ _ new), app_nil_r; [reflexivity|].
      intros e He'. apply Nat.eqb_neq.
      rewrite (example_rows_meaning _ _ _ _ e He').
      apply Hm in Hin. fold mid. lia.
    + unfold stored_form. fold vs. f_equal. f_equal. f_equal.
      rewrite filter_app. fold mid. fold new.
      rewrite (filter_none _ _ (examples db)), (filter_all _ _ new).
      * simpl. apply example_rows_values.
      * intros e He'. apply Nat.eqb_eq.
        exact (example_rows_meaning _ _ _ _ e He').
      * intros e He'. apply Nat.eqb_neq. apply Hex in He'. unfold mid. lia.
Qed.


(** *** The loop over the submitted meanings *)

Lemma for_of_insertMeaning_success (now : Z) (id : nat) (defs : list Meaning) :
  forall db db',
    db_wf db = true ->
    for_of defs (insertMeaning now id) db = (inr tt, db') ->
    db_wf db' = true
    /\ read_meanings db' id = read_meanings db id ++ map stored_form defs
    /\ meanings_id_seq db <= meanings_id_seq db'
    /\ exists added,
         meanings db' = meanings db ++ added
         /\ Forall (fun m => meanings_id_seq db < m_id m) added.
Proof.
  induction defs as [|def defs IH]; intros db db' Hwf; simpl.
  - unfold ret. intros H. injection H as <-.
    rewrite app_nil_r. repeat split; auto.
    exists []. rewrite app_nil_r. auto.
  - unfold bind.
    destruct (insertMeaning now id def db) as [[e|[]] db1] eqn:E;
      [intros H; discriminate H|].
    intros H.
    destruct (insertMeaning_step now id def db db1 Hwf E)
      as (Hwf1 & Hread1 & Hseq1 & row & Hrow & Hid).
    destruct (IH db1 db' Hwf1 H) as (Hwf' & Hread' & Hseq' & added & Hadd & Hall).
    split; [assumption|]. split; [|split; [lia|]].
    + rewrite Hread', Hread1, <- app_assoc. reflexivity.
    + exists (row :: added). split.
      * rewrite Hadd, Hrow, <- app_assoc. reflexivity.
      * constructor; [lia|].
        eapply Forall_impl; [|exact Hall]. simpl. intros m Hlt. lia.
Qed.

Lemma for_of_insertMeaning_failure (now : Z) (id : nat) (defs : list Meaning) :
  forall db db' e,
    for_of defs (insertMeaning now id) db = (inl e, db') ->
    exists done bad rest,
      defs = done ++ bad :: rest
      /\ int4 (def_number bad) = false
      /\ e = Rejected IntegerOutOfRange
      /\ for_of done (insertMeaning now id) db = (inr tt, db').
Proof.
  induction defs as [|def defs IH]; intros db db' e; simpl.
  - unfold ret. intros H. discriminate H.
  - unfold bind.
    destruct (insertMeaning now id def db) as [[e1|[]] db1] eqn:E.
    + intros H. injection H as <- <-.
      apply insertMeaning_failure in E. destruct E as (Hint & He & Hdb).
      exists [], def, defs. subst. repeat split; auto.
    + intros H. destruct (IH db1 db' e H) as (done & bad & rest & -> & Hb & He & Hd).
      exists (def :: done), bad, rest. repeat split; auto.
      simpl. unfold bind. rewrite E. exact Hd.
Qed.


(** *** The statements of [updateWordByLemma] *)

Lemma update_word_cases (db db1 : DB) (id : nat) (u : WordUpdate)
  (res : violation + unit) :
  update_word db id u = (res, db1) ->
  (res = inl ForeignKey /\ db1 = db)
  \/ (res = inr tt
      /\ meanings db1 = meanings db /\ examples db1 = examples db
      /\ meanings_id_seq db1 = meanings_id_seq db).
Proof.
  unfold update_word.
  destruct (match wu_assignedTo u with Some a => fk_user db a | None => true end);
    intros H; injection H as <- <-; [right|left]; simpl; auto.
Qed.

Lemma delete_meanings_wf (db : DB) (id : nat) :
  db_wf db = true -> db_wf (delete_meanings db id) = true.
Proof.
  intros Hwf. apply db_wf_iff in Hwf. destruct Hwf as [Hm _].
  apply db_wf_iff. unfold delete_meanings. simpl. split.
  - intros m Hin. apply filter_In in Hin. now apply Hm.
  - intros e Hin. apply filter_In in Hin. destruct Hin as [_ Hex].
    apply existsb_exists in Hex. destruct Hex as [m [Hmin Heq]].
    apply Nat.eqb_eq in Heq. eauto.
Qed.

Lemma delete_meanings_none_left (db : DB) (id : nat) :
  meanings_of (delete_meanings db id) id = []
  /\ meanings_id_seq (delete_meanings db id) = meanings_id_seq db.
Proof.
  split; [|reflexivity].
  unfold meanings_of, delete_meanings. simpl.
  apply filter_none. intros m Hin. apply filter_In in Hin.
  destruct Hin as [_ Hne]. now apply negb_true_iff in Hne.
Qed.

Lemma updateWordByLemma_cases (now : Z) (prevLemma : jsstring)
  (updatedWord : Word) (options : UpdateOptions) (db db' : DB)
  (res : error + unit) :
  updateWordByLemma now prevLemma updatedWord options db = (res, db') ->
  (findFirst_lemma db prevLemma = None
   /\ res = inl (WordNotFound prevLemma) /\ db' = db)
  \/ exists row,
       findFirst_lemma db prevLemma = Some row
       /\ ((update_word db (w_id row) (updateData now updatedWord options)
            = (inl ForeignKey, db)
            /\ res = inl (Rejected ForeignKey) /\ db' = db)
           \/ exists db1,
                update_word db (w_id row) (updateData now updatedWord options)
                = (inr tt, db1)
                /\ for_of (values updatedWord) (insertMeaning now (w_id row))
                     (delete_meanings db1 (w_id row))
                   = (res, db')).
Proof.
  unfold updateWordByLemma, bind, lookup, throw, stmt, exec.
  fold (updateData now updatedWord options).
  destruct (findFirst_lemma db prevLemma) as [row|] eqn:Ef.
  - intros H. right. exists row. split; [reflexivity|].
    destruct (update_word db (w_id row) (updateData now updatedWord options))
      as [[v|[]] db1] eqn:Eu.
    + left. injection H as <- <-.
      destruct (update_word_cases _ _ _ _ _ Eu) as [[Hv ->]|[Hv _]];
        [|discriminate Hv].
      injection Hv as ->. auto.
    + right. exists db1. split; [reflexivity|exact H].
  - intros H. injection H as <- <-. left. auto.
Qed.

(** *** The store stays well formed along the mutation service *)



(** *** Claims on [updateWordByLemma] *)



(** C2, as stated, fails: the source opens no transaction.  On the store
    [store_casa], where "casa" has two meanings, an edit whose second
    meaning carries a number outside the [integer] column is rejected at
    that meaning, and the store is not the one from before the call: the
    two prior meanings are gone and only the first submitted meaning is
    there. *)
Lemma updateWordByLemma_failure_changes_store :
  fst failed_edit = inl (Rejected IntegerOutOfRange)
  /\ read_meanings store_casa 1
     = [stored_form (meaning_n 1 [109%N]); stored_form (meaning_n 2 [110%N])]
  /\ read_meanings (snd failed_edit) 1 = [stored_form (meaning_n 1 [112%N])]
  /\ snd failed_edit <> store_casa.
Proof.
  split; [reflexivity|]. split; [reflexivity|]. split; [reflexivity|].
  intros H. apply (f_equal (fun d => length (meanings d))) in H.
  vm_compute in H. discriminate H.
Qed.

(** C2 (amended).  [updateWordByLemma] sends its lookup, its word-row
    update, its delete of all meanings and its inserts as separate
    statements, with no transaction around them, and what a statement has
    done stays when a later one fails.  When the call fails, either no
    word has the lemma, or the word-row update was rejected, and in both
    cases the store is unchanged; or a submitted meaning was rejected, and
    then the store is the one left by the word-row update, the delete and
    the inserts of the meanings submitted before the rejected one, so that
    (on a well-formed store) the word is read back with exactly those
    meanings. *)
Theorem updateWordByLemma_failure_keeps_earlier_steps :
  forall (now : Z) (prevLemma : jsstring) (updatedWord : Word)
         (options : UpdateOptions) (db db' : DB) (e : error),
    updateWordByLemma now prevLemma updatedWord options db = (inl e, db') ->
    (findFirst_lemma db prevLemma = None
     /\ e = WordNotFound prevLemma /\ db' = db)
    \/ (exists row,
          findFirst_lemma db prevLemma = Some row
          /\ update_word db (w_id row) (updateData now updatedWord options)
             = (inl ForeignKey, db)
          /\ e = Rejected ForeignKey /\ db' = db)
    \/ (exists row db1 done bad rest,
          findFirst_lemma db prevLemma = Some row
          /\ update_word db (w_id row) (updateData now updatedWord options)
             = (inr tt, db1)
          /\ values updatedWord = done ++ bad :: rest
          /\ int4 (def_number bad) = false
          /\ e = Rejected IntegerOutOfRange
          /\ for_of done (insertMeaning now (w_id row))
               (delete_meanings db1 (w_id row))
             = (inr tt, db')
          /\ (db_wf db = true ->
              read_meanings db' (w_id row) = map stored_form done)).
Proof.
  intros now prevLemma updatedWord options db db' e H.
  apply updateWordByLemma_cases in H.
  destruct H as [(Hf & Hr & ->)|(row & Hf & [(Hu & Hr & ->)|(db1 & Hu & Hl)])].
  - left. injection Hr as ->. auto.
  - right; left. injection Hr as ->. exists row. auto.
  - right; right.
    destruct (for_of_insertMeaning_failure _ _ _ _ _ _ Hl)
      as (done & bad & rest & Hv & Hb & He & Hd).
    exists row, db1, done, bad, rest. repeat split; try assumption.
    intros Hwf.
    destruct (update_word_cases _ _ _ _ _ Hu) as [[Hv' _]|(_ & Hm & Hx & Hs)];
      [discriminate Hv'|].
    assert (Hwf2 : db_wf (delete_meanings db1 (w_id row)) = true).
    { apply delete_meanings_wf. rewrite (db_wf_same_rows db db1 Hm Hx Hs).
      exact Hwf. }
    destruct (for_of_insertMeaning_success now (w_id row) done _ _ Hwf2 Hd)
      as (_ & Hread & _).
    rewrite Hread. unfold read_meanings at 1.
    destruct (delete_meanings_none_left db1 (w_id row)) as [-> _].
    reflexivity.
Qed.

Lemma updateWordByLemma_failure_keeps_earlier_steps_witness :
  failed_edit = (inl (Rejected IntegerOutOfRange), snd failed_edit)
  /\ ((findFirst_lemma store_casa s_casa = None
       /\ Rejected IntegerOutOfRange = WordNotFound s_casa
       /\ snd failed_edit = store_casa)
      \/ (exists row,
            findFirst_lemma store_casa s_casa = Some row
            /\ update_word store_casa (w_id row)
                 (updateData 5 edit_out_of_range no_update_options)
               = (inl ForeignKey, store_casa)
            /\ Rejected IntegerOutOfRange = Rejected ForeignKey
            /\ snd failed_edit = store_casa)
      \/ (exists row db1 done bad rest,
            findFirst_lemma store_casa s_casa = Some row
            /\ update_word store_casa (w_id row)
                 (updateData 5 edit_out_of_range no_update_options)
               = (inr tt, db1)
            /\ values edit_out_of_range = done ++ bad :: rest
            /\ int4 (def_number bad) = false
            /\ Rejected IntegerOutOfRange = Rejected IntegerOutOfRange
            /\ for_of done (insertMeaning 5 (w_id row))
                 (delete_meanings db1 (w_id row))
               = (inr tt, snd failed_edit)
            /\ (db_wf store_casa = true ->
                read_meanings (snd failed_edit) (w_id row)
                = map stored_form done))).
Proof.
  split; [reflexivity|].
  apply (updateWordByLemma_failure_keeps_earlier_steps 5 s_casa
           edit_out_of_range no_update_options store_casa).
  reflexivity.
Defined.

(** *** Claims on the examples of a meaning *)

Lemma or_null_falsy (x : opt jsstring) : truthy x = false -> or_null x = None.
Proof. destruct x as [| |[|c s]]; simpl; try reflexivity. discriminate. Qed.

Lemma or_null_truthy (x : opt jsstring) (s : jsstring) :
  s <> [] -> x = Val s -> or_null x = Some s.
Proof. intros Hs ->. destruct s; [congruence|reflexivity]. Qed.

(** C7.  When [insertMeaning] succeeds, the example rows it adds belong to
    the inserted meaning and hold, in order, the cleaned form of each
    submitted example.  In the cleaned form the quotation text is kept as
    it is; a publication that is present (a non-empty string) is kept; when
    the publication is absent (undefined, null or empty) a legacy source
    that is present becomes the publication, and without either the
    publication is null; every other optional field is kept when present
    and null when falsy. *)
Theorem insertMeaning_cleans_examples :
  forall (now : Z) (id : nat) (def : Meaning) (db db' : DB),
    insertMeaning now id def db = (inr tt, db') ->
    (exists rows,
        examples db' = examples db ++ rows
        /\ Forall (fun e => e_meaningId e = meanings_id_seq db') rows
        /\ map e_values rows = map cleanExample (submitted_examples def))
    /\ forall ex : Example,
         ev_value (cleanExample ex) = ex_value ex
         /\ (forall s, s <> [] -> ex_publication ex = Val s ->
             ev_publication (cleanExample ex) = Some s)
         /\ (forall s, s <> [] -> truthy (ex_publication ex) = false ->
             ex_source ex = Val s ->
             ev_publication (cleanExample ex) = Some s)
         /\ (truthy (ex_publication ex) = false ->
             truthy (ex_source ex) = false ->
             ev_publication (cleanExample ex) = None)
         /\ Forall (fun fg =>
                      (truthy (fst fg ex) = false ->
                       snd fg (cleanExample ex) = None)
                      /\ (forall s, s <> [] -> fst fg ex = Val s ->
                          snd fg (cleanExample ex) = Some s))
                   other_fields.
Proof.
  intros now id def db db' H. split.
  - apply insertMeaning_success in H. destruct H as [_ ->]. simpl.
    eexists. split; [reflexivity|]. split.
    + apply Forall_forall. intros e He.
      exact (example_rows_meaning _ _ _ _ e He).
    + rewrite example_rows_values. unfold normalizeAndCleanExamples,
        submitted_examples.
      destruct (def_examples def) as [| |[|x xs]]; reflexivity.
  - intros ex. split; [reflexivity|]. split; [|split; [|split]].
    + intros s Hs E. simpl. unfold js_or. rewrite E.
      destruct s; [congruence|reflexivity].
    + intros s Hs Hp E. simpl. unfold js_or. rewrite Hp.
      now apply or_null_truthy.
    + intros Hp Hsrc. simpl. unfold js_or. rewrite Hp.
      now apply or_null_falsy.
    + unfold other_fields.
      repeat (constructor;
              [split; [apply or_null_falsy | apply or_null_truthy]|]).
      constructor.
Qed.

Lemma insertMeaning_cleans_examples_witness :
  one_insert = (inr tt, snd one_insert)
  /\ (exists rows,
         examples (snd one_insert) = examples (empty_db []) ++ rows
         /\ Forall (fun e => e_meaningId e = meanings_id_seq (snd one_insert))
                   rows
         /\ map e_values rows
            = map cleanExample (submitted_examples (meaning_n 1 [109%N])))
  /\ ev_value (cleanExample example_legacy) = ex_value example_legacy
  /\ ev_publication (cleanExample example_legacy) = Some s_X.
Proof.
  split; [reflexivity|].
  destruct (insertMeaning_cleans_examples 0 1 (meaning_n 1 [109%N])
              (empty_db []) (snd one_insert) eq_refl)
    as [Hrows Hfields].
  split; [exact Hrows|].
  destruct (Hfields example_legacy) as (Hv & _ & Hsrc & _).
  split; [exact Hv|].
  apply Hsrc; [discriminate|reflexivity|reflexivity].
Defined.

(* ================================================================== *)
(** ** Properties of the search page controller                        *)
(* ================================================================== *)

(** *** Comparing filters *)

Lemma values_eqb_refl (l : list jsstring) : values_eqb l l = true.
Proof.
  induction l as [|s l IH]; simpl; [reflexivity|].
  now rewrite str_eqb_refl.
Qed.

Lemma existsb_none (A : Type) (f : A -> bool) (l : list A) :
  (forall x, f x = false) -> existsb f l = false.
Proof.
  intros H. induction l as [|a l IH]; simpl; [reflexivity|].
  now rewrite H, IH.
Qed.

Lemma filtersChanged_same_contents (a b : LocalSearchFilters) :
  categories b = categories a ->
  origins b = origins a ->
  letters b = letters a ->
  dictionaries b = dictionaries a ->
  (forall key, marker_get (markers b) key = marker_get (markers a) key) ->
  filtersChanged a b = false.
Proof.
  intros Hc Ho Hl Hd Hm. unfold filtersChanged.
  rewrite Hc, Ho, Hl, Hd, !values_eqb_refl. cbn [negb orb].
  apply existsb_none. intros key. now rewrite Hm, values_eqb_refl.
Qed.

Lemma updateState_same (f : SearchState -> update) (p : Page) :
  f (searchState p) = Same -> updateState f p = p.
Proof.
  intros H. unfold updateState. rewrite H. simpl. destruct p; reflexivity.
Qed.

(** C9.  When the incoming query is the current query and every filter
    category of the incoming filters holds the same contents as the
    current one (whatever object carries them), [updateStateIfChanged]
    and the updater of [handleSearchStateChange], in editor and in public
    mode, hand back the previous state object itself, and the page state
    is left as it was. *)
Theorem unchanged_search_state_is_kept :
  forall (editorMode : bool) (prev : SearchState) (query : jsstring)
         (filters : LocalSearchFilters),
    query = ss_query prev ->
    categories filters = categories (ss_filters prev) ->
    origins filters = origins (ss_filters prev) ->
    letters filters = letters (ss_filters prev) ->
    dictionaries filters = dictionaries (ss_filters prev) ->
    (forall key, marker_get (markers filters) key
                 = marker_get (markers (ss_filters prev)) key) ->
    updateStateIfChanged prev query filters = Same
    /\ handleSearchStateChange editorMode prev query filters = Same
    /\ forall p, searchState p = prev ->
         updateState (fun s => handleSearchStateChange editorMode s query filters) p
         = p.
Proof.
  intros editorMode prev query filters -> Hc Ho Hl Hd Hm.
  pose proof (filtersChanged_same_contents (ss_filters prev) filters
                Hc Ho Hl Hd Hm) as Hf.
  assert (Hu : updateStateIfChanged prev (ss_query prev) filters = Same).
  { unfold updateStateIfChanged. rewrite Hf, str_eqb_refl. reflexivity. }
  assert (Hh : handleSearchStateChange editorMode prev (ss_query prev) filters
               = Same).
  { unfold handleSearchStateChange. destruct editorMode; [|exact Hu].
    rewrite Hf. reflexivity. }
  split; [exact Hu|]. split; [exact Hh|].
  intros p Hp. apply updateState_same. rewrite Hp. exact Hh.
Qed.

Lemma unchanged_search_state_is_kept_witness :
  updateStateIfChanged state_c s_A (cloneFilters filters_c) = Same
  /\ handleSearchStateChange true state_c s_A (cloneFilters filters_c) = Same
  /\ forall p, searchState p = state_c ->
       updateState
         (fun s => handleSearchStateChange true s s_A (cloneFilters filters_c)) p
       = p.
Proof.
  apply (unchanged_search_state_is_kept true state_c s_A
           (cloneFilters filters_c));
    reflexivity.
Defined.

(** *** One call and one settling of [executeSearch] *)

Lemma executeSearch_call_token (q : jsstring) (f : LocalSearchFilters)
  (n : option Z) (p : Page) :
  requestId (snd (executeSearch_call q f n p)) = latestRequestRef p + 1
  /\ latestRequestRef (fst (executeSearch_call q f n p))
     = latestRequestRef p + 1
  /\ display (fst (executeSearch_call q f n p)) = display p
  /\ query (snd (executeSearch_call q f n p)) = q.
Proof. repeat split. Qed.

Lemma executeSearch_resume_stale (k : Pending) (o : exn + SearchData)
  (p : Page) :
  requestId k <> latestRequestRef p ->
  executeSearch_resume k o p = (Return, p).
Proof.
  intros H. apply Nat.eqb_neq in H.
  unfold executeSearch_resume, try_catch_finally, Controller.seq, await,
    Controller.read, return_, skip.
  destruct o as [e|d]; simpl; rewrite H; simpl; rewrite H; reflexivity.
Qed.

Lemma executeSearch_resume_success (k : Pending) (d : SearchData) (p : Page) :
  requestId k = latestRequestRef p ->
  executeSearch_resume k (inr d) p
  = (Normal tt,
     mkPage (latestRequestRef p) (searchState p) (results d) false true
       (total d) (page k) (query k)
       (mkPagination (totalPages d) (hasNext d) (hasPrev d))
       (match nextStateSnapshot k with
        | Some s => Some s
        | None => savedFilters p
        end)).
Proof.
  intros H. apply Nat.eqb_eq in H.
  unfold executeSearch_resume, try_catch_finally, Controller.seq, await,
    Controller.read, return_, skip, Controller.set.
  simpl. rewrite H. simpl. rewrite H. simpl.
  destruct (nextStateSnapshot k); reflexivity.
Qed.

Lemma executeSearch_resume_failure (k : Pending) (e : exn) (p : Page) :
  requestId k = latestRequestRef p ->
  executeSearch_resume k (inl e) p
  = (Normal tt,
     mkPage (latestRequestRef p) (searchState p) [] false true
       0 (currentPage p) (lastExecutedQuery p)
       (mkPagination 0 false false)
       (match nextStateSnapshot k with
        | Some s => Some s
        | None => savedFilters p
        end)).
Proof.
  intros H. apply Nat.eqb_eq in H.
  unfold executeSearch_resume, try_catch_finally, Controller.seq, await,
    Controller.read, return_, skip, Controller.set.
  simpl. rewrite H. simpl. rewrite H. simpl.
  destruct (nextStateSnapshot k); reflexivity.
Qed.

(** *** Runs *)

Lemma step_settle_stale (k : Pending) (o : exn + SearchData) (p : Page) :
  requestId k <> latestRequestRef p -> step p (Settle k o) = p.
Proof.
  intros H. simpl. now rewrite (executeSearch_resume_stale k o p H).
Qed.

Lemma step_settle_token (k : Pending) (o : exn + SearchData) (p : Page) :
  latestRequestRef (step p (Settle k o)) = latestRequestRef p.
Proof.
  destruct (Nat.eq_dec (requestId k) (latestRequestRef p)) as [E|E].
  - simpl. destruct o as [e|d].
    + now rewrite (executeSearch_resume_failure k e p E).
    + now rewrite (executeSearch_resume_success k d p E).
  - now rewrite (step_settle_stale k o p E).
Qed.

Lemma run_app (p : Page) (a b : list event) :
  run p (a ++ b) = run (run p a) b.
Proof. unfold run. apply fold_left_app. Qed.

Lemma tokens_app (a b : list event) :
  forall p, tokens p (a ++ b) = tokens p a ++ tokens (run p a) b.
Proof.
  induction a as [|e a IH]; intros p; [reflexivity|].
  destruct e as [q f n|k o]; simpl; now rewrite IH.
Qed.

(** Every token given out along a run is above the counter the run
    started with and not above the counter it ends with, and the tokens
    come out in strictly increasing order. *)
Lemma tokens_increase (evs : list event) :
  forall p,
    latestRequestRef p <= latestRequestRef (run p evs)
    /\ Forall (fun t => latestRequestRef p < t
                        /\ t <= latestRequestRef (run p evs))
              (tokens p evs)
    /\ StronglySorted lt (tokens p evs).
Proof.
  induction evs as [|e evs IH]; intros p.
  - simpl. repeat split; constructor.
  - destruct (IH (step p e)) as (Hle & Hall & Hsorted).
    destruct e as [q f n|k o].
    + change (run p (Call q f n :: evs)) with (run (step p (Call q f n)) evs).
      assert (Hs : latestRequestRef (step p (Call q f n))
                   = latestRequestRef p + 1) by reflexivity.
      rewrite Hs in Hle, Hall.
      split; [lia|]. simpl tokens. split.
      * constructor.
        -- change (requestId (snd (executeSearch_call q f n p)))
             with (latestRequestRef p + 1).
           lia.
        -- eapply Forall_impl; [|exact Hall]. cbv beta. intros t Ht. lia.
      * constructor; [exact Hsorted|].
        change (requestId (snd (executeSearch_call q f n p)))
          with (latestRequestRef p + 1).
        eapply Forall_impl; [|exact Hall]. cbv beta. intros t Ht. lia.
    + change (run p (Settle k o :: evs)) with (run (step p (Settle k o)) evs).
      rewrite step_settle_token in Hle, Hall.
      split; [exact Hle|]. split; [exact Hall|exact Hsorted].
Qed.

(** Settlings of superseded searches leave the page as it is. *)
Lemma run_stale (evs : list event) :
  forall p,
    Forall (settles_other (latestRequestRef p)) evs -> run p evs = p.
Proof.
  induction evs as [|e evs IH]; intros p H; [reflexivity|].
  inversion H as [|? ? He Hrest]; subst.
  destruct e as [q f n|k o]; [contradiction|].
  change (run p (Settle k o :: evs)) with (run (step p (Settle k o)) evs).
  simpl in He. rewrite (step_settle_stale k o p He). now apply IH.
Qed.

(** C3.  Along any run of the page, a newly started search takes a token
    strictly above every token given out before, and the tokens of a run
    are strictly increasing; the settling of a search whose token is not
    the latest one leaves the page, and so everything it displays, as it
    is; and once a search has been started, whatever superseded searches
    settle before or after it, the page ends as if only that search had
    settled: when it succeeds, the displayed results, total, pagination,
    current page and executed query are those of that search alone. *)
Theorem last_request_wins :
  forall (p : Page) (pre : list event) (q : jsstring)
         (f : LocalSearchFilters) (n : option Z)
         (before after : list event) (o : exn + SearchData),
    let p1 := run p pre in
    let p2 := fst (executeSearch_call q f n p1) in
    let k := snd (executeSearch_call q f n p1) in
    Forall (settles_other (requestId k)) before ->
    Forall (settles_other (requestId k)) after ->
    Forall (fun t => t < requestId k) (tokens p pre)
    /\ StronglySorted lt (tokens p (pre ++ [Call q f n]))
    /\ (forall p' k' o',
          requestId k' <> latestRequestRef p' ->
          step p' (Settle k' o') = p')
    /\ run p2 (before ++ Settle k o :: after) = step p2 (Settle k o)
    /\ (forall d, o = inr d ->
          display (run p2 (before ++ Settle k o :: after))
          = mkDisplay (results d) (total d)
              (mkPagination (totalPages d) (hasNext d) (hasPrev d))
              (page k) q).
Proof.
  intros p pre q f n before after o p1 p2 k Hb Ha.
  assert (Hk : requestId k = latestRequestRef p2) by reflexivity.
  assert (Hrun : run p2 (before ++ Settle k o :: after) = step p2 (Settle k o)).
  { rewrite run_app. rewrite Hk in Hb. rewrite (run_stale before p2 Hb).
    change (run p2 (Settle k o :: after))
      with (run (step p2 (Settle k o)) after).
    apply run_stale. rewrite step_settle_token, <- Hk. exact Ha. }
  split; [|split; [|split; [|split]]].
  - destruct (tokens_increase pre p) as (_ & Hall & _).
    eapply Forall_impl; [|exact Hall]. simpl. intros t [_ Ht].
    change (requestId k) with (latestRequestRef p1 + 1). unfold p1. lia.
  - apply tokens_increase.
  - intros p' k' o'. apply step_settle_stale.
  - exact Hrun.
  - intros d ->. rewrite Hrun. simpl.
    rewrite (executeSearch_resume_success k d p2 Hk). reflexivity.
Qed.

Lemma last_request_wins_witness :
  Forall (settles_other (requestId requestB)) []
  /\ Forall (settles_other (requestId requestB)) [Settle requestA (inr dataA)]
  /\ display (run pageB [Settle requestB (inr dataB); Settle requestA (inr dataA)])
     = mkDisplay (results dataB) (total dataB)
         (mkPagination (totalPages dataB) (hasNext dataB) (hasPrev dataB))
         2%Z s_B.
Proof.
  assert (H1 : Forall (settles_other (requestId requestB)) [])
    by constructor.
  assert (H2 : Forall (settles_other (requestId requestB))
                 [Settle requestA (inr dataA)]).
  { constructor; [|constructor]. simpl. discriminate. }
  split; [exact H1|]. split; [exact H2|].
  exact (proj2 (proj2 (proj2 (proj2
           (last_request_wins page0 [Call s_A no_filters None] s_B no_filters
              (Some 2%Z) [] [Settle requestA (inr dataA)] (inr dataB) H1 H2))))
           dataB eq_refl).
Defined.

(** C8, as stated, fails: after the searches for "A" and "B" have been
    started and "B" has been answered, the failure of the superseded
    search for "A" leaves the results and the total of "B" on the page;
    the display does not become empty. *)
Lemma failure_of_superseded_search_keeps_display :
  searchResults page_B_then_A_fails = results dataB
  /\ searchResults page_B_then_A_fails <> []
  /\ totalResults page_B_then_A_fails <> 0%Z.
Proof.
  split; [reflexivity|]. split; vm_compute; discriminate.
Qed.

(** C8 (amended).  When a search fails while it is still the latest one
    started, the promise of [executeSearch] is not rejected, the page
    shows an empty result list, a total of zero and empty pagination
    metadata, it counts as searched and no longer as loading, and the
    store is what it was.  When a search fails after a later one has been
    started, the promise is not rejected either and the page is left as it
    is. *)
Theorem failed_search_shows_no_results :
  forall (w : World) (k : Pending) (e : exn),
    requestId k = latestRequestRef (client w) ->
    let r := executeSearch_resume k (inl e) (client w) in
    rejects (fst r) = false
    /\ searchResults (snd r) = []
    /\ totalResults (snd r) = 0%Z
    /\ pagination (snd r) = mkPagination 0 false false
    /\ hasSearched (snd r) = true
    /\ isLoading (snd r) = false
    /\ client (world_step w (Settle k (inl e))) = snd r
    /\ store (world_step w (Settle k (inl e))) = store w
    /\ forall p k' e',
         requestId k' <> latestRequestRef p ->
         rejects (fst (executeSearch_resume k' (inl e') p)) = false
         /\ snd (executeSearch_resume k' (inl e') p) = p.
Proof.
  intros w k e Hk r. unfold r.
  assert (Hc : client (world_step w (Settle k (inl e)))
               = snd (executeSearch_resume k (inl e) (client w)))
    by reflexivity.
  rewrite Hc, (executeSearch_resume_failure k e (client w) Hk). simpl.
  do 8 (split; [reflexivity|]).
  intros p k' e' Hstale.
  rewrite (executeSearch_resume_stale k' (inl e') p Hstale).
  split; reflexivity.
Qed.

Lemma failed_search_shows_no_results_witness :
  requestId requestB = latestRequestRef pageB
  /\ rejects (fst (executeSearch_resume requestB (inl failure) pageB)) = false
  /\ searchResults (snd (executeSearch_resume requestB (inl failure) pageB)) = []
  /\ totalResults (snd (executeSearch_resume requestB (inl failure) pageB)) = 0%Z.
Proof.
  split; [reflexivity|].
  destruct (failed_search_shows_no_results (mkWorld store_casa pageB) requestB
              failure eq_refl) as (H1 & H2 & H3 & _).
  split; [exact H1|]. split; [exact H2|exact H3].
Defined.

(* ================================================================== *)
(** ** Further properties of the mutation service                      *)
(* ================================================================== *)

(** *** Integrity of the whole store *)

Lemma tables_wf_iff (t : Tables) :
  tables_wf t = true <->
  db_wf (base t) = true
  /\ (forall w, In w (words (base t)) -> w_id w <= words_id_seq (base t))
  /\ (forall m, In m (meanings (base t)) ->
        exists w, In w (words (base t)) /\ w_id w = m_wordId m)
  /\ (forall n, In n (notes t) ->
        n_id n <= notes_id_seq t
        /\ exists w, In w (words (base t)) /\ w_id w = n_wordId n).
Proof.
  unfold tables_wf. rewrite !andb_true_iff, !forallb_forall. split.
  - intros [[[Hd Hw] Hm] Hn]. split; [exact Hd|]. split; [|split].
    + intros w Hin. apply Nat.leb_le. now apply Hw.
    + intros m Hin. apply Hm in Hin. apply existsb_exists in Hin.
      destruct Hin as [w [Hwin Heq]]. apply Nat.eqb_eq in Heq. eauto.
    + intros n Hin. apply Hn in Hin. apply andb_true_iff in Hin.
      destruct Hin as [Hle Hex]. split; [now apply Nat.leb_le|].
      apply existsb_exists in Hex. destruct Hex as [w [Hwin Heq]].
      apply Nat.eqb_eq in Heq. eauto.
  - intros (Hd & Hw & Hm & Hn). repeat split; try assumption.
    + intros w Hin. apply Nat.leb_le. now apply Hw.
    + intros m Hin. apply existsb_exists.
      destruct (Hm m Hin) as [w [Hwin Heq]]. exists w.
      split; [assumption|]. now apply Nat.eqb_eq.
    + intros n Hin. destruct (Hn n Hin) as [Hle [w [Hwin Heq]]].
      apply andb_true_iff. split; [now apply Nat.leb_le|].
      apply existsb_exists. exists w. split; [assumption|].
      now apply Nat.eqb_eq.
Qed.

(** *** The rows a run of the loop adds, whatever its outcome *)

Lemma for_of_insertMeaning_rows (now : Z) (id : nat) (defs : list Meaning) :
  forall db db' res,
    for_of defs (insertMeaning now id) db = (res, db') ->
    meanings_id_seq db <= meanings_id_seq db'
    /\ exists addedM addedE,
         meanings db' = meanings db ++ addedM
         /\ examples db' = examples db ++ addedE
         /\ Forall (fun m => m_wordId m = id
                             /\ meanings_id_seq db < m_id m
                             /\ m_id m <= meanings_id_seq db') addedM
         /\ Forall (fun e => meanings_id_seq db < e_meaningId e
                             /\ exists m, In m addedM
                                          /\ m_id m = e_meaningId e) addedE.
Proof.
  induction defs as [|def defs IH]; intros db db' res; simpl.
  - unfold ret. intros H. injection H as _ <-. split; [lia|].
    exists [], []. rewrite !app_nil_r. repeat split; constructor.
  - unfold bind.
    destruct (insertMeaning now id def db) as [[e|[]] db1] eqn:E.
    + intros H. injection H as _ <-.
      apply insertMeaning_failure in E. destruct E as (_ & _ & ->).
      split; [lia|]. exists [], []. rewrite !app_nil_r.
      repeat split; constructor.
    + intros H. apply insertMeaning_success in E. destruct E as [_ E].
      destruct (IH db1 db' res H) as (Hle & addedM & addedE & Hm & He & HM & HE).
      subst db1. simpl in *.
      split; [lia|].
      eexists (_ :: addedM), (_ ++ addedE).
      split; [rewrite Hm, <- app_assoc; reflexivity|].
      split; [rewrite He, <- app_assoc; reflexivity|].
      split.
      * constructor; [simpl; repeat split; lia|].
        eapply Forall_impl; [|exact HM]. cbv beta.
        intros m (Hw & Hlo & Hhi). repeat split; try assumption. lia.
      * apply Forall_app. split.
        -- apply Forall_forall. intros e Hin.
           rewrite (example_rows_meaning _ _ _ _ e Hin).
           split; [lia|]. eexists. split; [left; reflexivity|reflexivity].
        -- eapply Forall_impl; [|exact HE]. cbv beta.
           intros e (Hlo & m & Hin & Heq). split; [lia|].
           exists m. split; [now right|assumption].
Qed.

(** *** The outcomes of [createWord] *)

Lemma insert_word_cases (db db1 : DB) (now : Z) (v : WordInsert)
  (res : violation + WordRow) :
  insert_word db now v = (res, db1) ->
  meanings db1 = meanings db /\ examples db1 = examples db
  /\ meanings_id_seq db1 = meanings_id_seq db
  /\ users db1 = users db
  /\ words_id_seq db1 = S (words_id_seq db)
  /\ ((res = inl ForeignKey /\ words db1 = words db)
      \/ exists row,
           res = inr row /\ words db1 = words db ++ [row]
           /\ w_id row = S (words_id_seq db)
           /\ w_lemma row = wi_lemma v).
Proof.
  unfold insert_word.
  destruct (fk_user db (wi_createdBy v) && fk_user db (wi_assignedTo v));
    intros H; injection H as <- <-; simpl; repeat split.
  - right. eexists. repeat split.
  - left. split; reflexivity.
Qed.

Lemma createWord_cases (lower : jsstring -> jsstring) (now : Z)
  (newWord : Word) (options : CreateWordOptions) (db db' : DB)
  (res : error + Created) :
  createWord lower now newWord options db = (res, db') ->
  (trim (lemma newWord) = [] /\ res = inl LemaObligatorio /\ db' = db)
  \/ (exists found,
        findFirst_lemma db (trim (lemma newWord)) = Some found
        /\ res = inl (YaExiste (trim (lemma newWord))) /\ db' = db)
  \/ (trim (lemma newWord) <> []
      /\ findFirst_lemma db (trim (lemma newWord)) = None
      /\ insert_word db now (wordInsert lower newWord options)
         = (inl ForeignKey, db')
      /\ res = inl (Rejected ForeignKey))
  \/ (trim (lemma newWord) <> []
      /\ findFirst_lemma db (trim (lemma newWord)) = None
      /\ exists row db1 lres,
           insert_word db now (wordInsert lower newWord options)
           = (inr row, db1)
           /\ for_of (values newWord) (insertMeaning now (w_id row)) db1
              = (lres, db')
           /\ res = match lres with
                    | inl e => inl e
                    | inr _ =>
                      inr (mkCreated (w_id row) (trim (lemma newWord))
                             (normalizedLetter lower (trim (lemma newWord))
                                options))
                    end).
Proof.
  unfold createWord. fold (wordInsert lower newWord options).
  destruct (trim (lemma newWord)) as [|c l] eqn:Et.
  - intros H. injection H as <- <-. left. auto.
  - unfold bind, lookup, stmt, throw, ret.
    fold (wordInsert lower newWord options).
    destruct (findFirst_lemma db (c :: l)) as [found|] eqn:Ef.
    + intros H. injection H as <- <-. right; left. exists found. auto.
    + assert (Hne : c :: l <> []) by discriminate.
      destruct (insert_word db now _) as [[v|row] db1] eqn:Ei.
      * intros H. injection H as <- <-. right; right; left.
        destruct (insert_word_cases _ _ _ _ _ Ei)
          as (_ & _ & _ & _ & _ & [[Hv _]|[row [Hv _]]]);
          [|discriminate Hv].
        injection Hv as ->. auto.
      * intros H. right; right; right.
        split; [exact Hne|]. split; [reflexivity|].
        destruct (for_of (values newWord) _ db1) as [[e|[]] db2] eqn:El;
          injection H as <- <-; exists row, db1; eexists;
          (split; [reflexivity|]); (split; [exact El|]); reflexivity.
Qed.

(** *** Helpers on lists and reads *)

Lemma find_snoc (A : Type) (f : A -> bool) (l : list A) (x : A) :
  find f (l ++ [x])
  = match find f l with
    | Some y => Some y
    | None => if f x then Some x else None
    end.
Proof.
  induction l as [|a l IH]; simpl; [reflexivity|].
  destruct (f a); [reflexivity|exact IH].
Qed.

Lemma find_absent (A : Type) (f : A -> bool) (l : list A) :
  (forall x, In x l -> f x = false) -> find f l = None.
Proof.
  induction l as [|a l IH]; simpl; intros H; [reflexivity|].
  rewrite (H a (or_introl eq_refl)). apply IH. intros x Hx. apply H. now right.
Qed.

Lemma NoDup_snoc (A : Type) (l : list A) (x : A) :
  NoDup l -> ~ In x l -> NoDup (l ++ [x]).
Proof.
  induction l as [|a l IH]; simpl; intros Hnd Hx.
  - constructor; [intros []|constructor].
  - inversion Hnd as [|? ? Ha Hl]; subst. constructor.
    + intros Hin. apply in_app_or in Hin. destruct Hin as [Hin|[->|[]]].
      * now apply Ha.
      * apply Hx. now left.
    + apply IH; [assumption|]. intros Hin. apply Hx. now right.
Qed.

Lemma findFirst_lemma_absent (db : DB) (l : jsstring) :
  (forall w, In w (words db) -> w_lemma w <> l) -> findFirst_lemma db l = None.
Proof.
  intros H. unfold findFirst_lemma. apply find_absent. intros w Hin.
  destruct (str_eqb (w_lemma w) l) eqn:E; [|reflexivity].
  apply str_eqb_eq in E. now apply H in Hin.
Qed.

Lemma findFirst_lemma_none (db : DB) (l : jsstring) :
  findFirst_lemma db l = None ->
  forall w, In w (words db) -> w_lemma w <> l.
Proof.
  unfold findFirst_lemma. intros Hf w Hin Heq.
  pose proof (find_none _ _ Hf w Hin) as Hno. simpl in Hno.
  rewrite Heq, str_eqb_refl in Hno. discriminate.
Qed.

Lemma findFirst_lemma_some (db : DB) (l : jsstring) (row : WordRow) :
  findFirst_lemma db l = Some row -> In row (words db) /\ w_lemma row = l.
Proof.
  unfold findFirst_lemma. intros Hf. apply find_some in Hf.
  destruct Hf as [Hin Heq]. split; [assumption|]. now apply str_eqb_eq.
Qed.

Lemma read_meanings_ext (db db1 : DB) (id : nat) :
  meanings db1 = meanings db -> examples db1 = examples db ->
  read_meanings db1 id = read_meanings db id.
Proof.
  intros Hm He. unfold read_meanings, meanings_of, examples_of.
  now rewrite Hm, He.
Qed.

(** Rows added for one word, with keys above every stored meaning, do not
    show when another word is read. *)
Lemma read_meanings_other_added (db db' : DB) (id id' : nat)
  (addedM : list MeaningRow) (addedE : list ExampleRow) :
  (forall m, In m (meanings db) -> m_id m <= meanings_id_seq db) ->
  meanings db' = meanings db ++ addedM ->
  examples db' = examples db ++ addedE ->
  Forall (fun m => m_wordId m = id) addedM ->
  Forall (fun e => meanings_id_seq db < e_meaningId e) addedE ->
  id' <> id ->
  read_meanings db' id' = read_meanings db id'.
Proof.
  intros Hb Hm He HM HE Hne.
  unfold read_meanings, meanings_of, examples_of. rewrite Hm, He.
  rewrite filter_app, (filter_none _ _ addedM), app_nil_r.
  - apply map_ext_in. intros m Hin. f_equal. f_equal.
    apply filter_In in Hin. destruct Hin as [Hin _].
    rewrite filter_app, (filter_none _ _ addedE), app_nil_r; [reflexivity|].
    intros e Hine. apply Nat.eqb_neq.
    rewrite Forall_forall in HE. apply HE in Hine. apply Hb in Hin. lia.
  - intros m Hin. apply Nat.eqb_neq.
    rewrite Forall_forall in HM. rewrite (HM m Hin). congruence.
Qed.

Lemma delete_meanings_other (db : DB) (id id' : nat) :
  id' <> id ->
  read_meanings (delete_meanings db id) id' = read_meanings db id'.
Proof.
  intros Hne. unfold read_meanings, meanings_of, examples_of, delete_meanings.
  simpl.
  assert (Hk : filter (fun m => Nat.eqb (m_wordId m) id')
                 (filter (fun m => negb (Nat.eqb (m_wordId m) id)) (meanings db))
               = filter (fun m => Nat.eqb (m_wordId m) id') (meanings db)).
  { induction (meanings db) as [|m ms IH]; simpl; [reflexivity|].
    destruct (Nat.eqb (m_wordId m) id) eqn:E1; simpl.
    - apply Nat.eqb_eq in E1.
      assert (E2 : Nat.eqb (m_wordId m) id' = false)
        by (apply Nat.eqb_neq; congruence).
      rewrite E2. exact IH.
    - destruct (Nat.eqb (m_wordId m) id'); [f_equal|]; exact IH. }
  rewrite Hk. apply map_ext_in. intros m Hin. f_equal. f_equal.
  apply filter_In in Hin. destruct Hin as [Hin Hw].
  assert (Hkept : In m (filter (fun m0 => negb (Nat.eqb (m_wordId m0) id))
                          (meanings db))).
  { apply filter_In. split; [assumption|]. apply negb_true_iff.
    apply Nat.eqb_eq in Hw. apply Nat.eqb_neq. congruence. }
  induction (examples db) as [|e es IH]; simpl; [reflexivity|].
  destruct (Nat.eqb (e_meaningId e) (m_id m)) eqn:E.
  - assert (Hex : existsb (fun m0 => Nat.eqb (m_id m0) (e_meaningId e))
                    (filter (fun m0 => negb (Nat.eqb (m_wordId m0) id))
                       (meanings db)) = true).
    { apply existsb_exists. exists m. split; [assumption|].
      apply Nat.eqb_eq in E. now apply Nat.eqb_eq. }
    rewrite Hex. simpl. rewrite E. f_equal. exact IH.
  - destruct (existsb _ _); simpl; [rewrite E|]; exact IH.
Qed.

(** *** [createWord] and what can be read afterwards *)

Lemma lift_inv (A : Type) (m : M A) (t t' : Tables) (res : error + A) :
  lift m t = (res, t') ->
  m (base t) = (res, base t')
  /\ notes t' = notes t /\ notes_id_seq t' = notes_id_seq t.
Proof.
  unfold lift. destruct (m (base t)) as [r d].
  intros H. injection H as <- <-. simpl. auto.
Qed.

(** What a [createWord] that got past its insert of the word has left. *)
Lemma createWord_inserted (lower : jsstring -> jsstring) (now : Z)
  (newWord : Word) (options : CreateWordOptions) (db db1 db' : DB)
  (row : WordRow) (lres : error + unit) :
  findFirst_lemma db (trim (lemma newWord)) = None ->
  insert_word db now (wordInsert lower newWord options) = (inr row, db1) ->
  for_of (values newWord) (insertMeaning now (w_id row)) db1 = (lres, db') ->
  words db' = words db ++ [row]
  /\ w_id row = S (words_id_seq db)
  /\ w_lemma row = trim (lemma newWord)
  /\ findFirst_lemma db' (trim (lemma newWord)) = Some row
  /\ users db' = users db
  /\ words_id_seq db' = S (words_id_seq db).
Proof.
  intros Hf Hi Hl.
  destruct (insert_word_cases _ _ _ _ _ Hi)
    as (_ & _ & _ & Hu & Hs & [[Hv _]|(row' & Hv & Hw & Hid & Hlem)]);
    [discriminate Hv|].
  injection Hv as <-.
  pose proof (for_of_insertMeaning_words now (w_id row) (values newWord) db1)
    as (Hw' & Hu' & Hs').
  rewrite Hl in Hw', Hu', Hs'. simpl in Hw', Hu', Hs'.
  assert (Hwords : words db' = words db ++ [row]) by congruence.
  split; [exact Hwords|]. split; [exact Hid|]. split; [exact Hlem|].
  split; [|split; congruence].
  unfold findFirst_lemma. rewrite Hwords, find_snoc.
  unfold findFirst_lemma in Hf. rewrite Hf.
  cbv beta. rewrite Hlem. simpl. now rewrite str_eqb_refl.
Qed.



(** X2.  A [createWord] that has succeeded makes every later [createWord]
    with the same trimmed lemma fail with the duplicate-lemma error and
    leave the store as it is, whatever its other fields and options. *)
Theorem createWord_twice_rejected :
  forall (lower : jsstring -> jsstring) (now : Z) (newWord : Word)
         (options : CreateWordOptions) (db db' : DB) (r : Created),
    createWord lower now newWord options db = (inr r, db') ->
    forall (now2 : Z) (again : Word) (options2 : CreateWordOptions),
      trim (lemma again) = trim (lemma newWord) ->
      createWord lower now2 again options2 db'
      = (inl (YaExiste (trim (lemma newWord))), db').
Proof.
  intros lower now newWord options db db' r H now2 again options2 Ht.
  destruct (createWord_row _ _ _ _ _ _ _ H) as (row & Hw & _ & Hlem & _).
  destruct (createWord_success _ _ _ _ _ _ _ H) as (_ & _ & Hne & _).
  assert (Hex : exists x, In x (words db') /\ w_lemma x = trim (lemma newWord)).
  { exists row. split; [|exact Hlem]. rewrite Hw. apply in_or_app.
    right. now left. }
  destruct (findFirst_lemma_present _ _ Hex) as [found Hfound].
  unfold createWord. rewrite Ht.
  destruct (trim (lemma newWord)) as [|c l]; [congruence|].
  unfold bind, lookup, throw. now rewrite Hfound.
Qed.

Lemma createWord_twice_rejected_witness :
  created_perro = (inr (mkCreated 2 s_perro [112%N]), tables_two)
  /\ createWord toLowerCase_latin1 9 word_perro_bad options_Z (base tables_two)
     = (inl (YaExiste (trim (lemma word_perro))), base tables_two).
Proof.
  split; [vm_compute; reflexivity|].
  apply (createWord_twice_rejected toLowerCase_latin1 1 word_perro no_options
           (base tables_casa) (base tables_two) (mkCreated 2 s_perro [112%N]));
    vm_compute; reflexivity.
Defined.

(** X3.  When [createWord] fails because the database rejects the number
    of a submitted meaning, nothing is rolled back: the word row stays
    (with, on a store that is well formed and whose meanings refer to keys
    already issued, exactly the meanings submitted before the rejected
    one), so its lemma is taken and a new [createWord] with that lemma
    fails with the duplicate-lemma error. *)
Theorem createWord_rejected_meaning_keeps_word :
  forall (lower : jsstring -> jsstring) (now : Z) (newWord : Word)
         (options : CreateWordOptions) (db db' : DB),
    createWord lower now newWord options db
    = (inl (Rejected IntegerOutOfRange), db') ->
    exists row done bad rest,
      words db' = words db ++ [row]
      /\ w_lemma row = trim (lemma newWord)
      /\ values newWord = done ++ bad :: rest
      /\ int4 (def_number bad) = false
      /\ (db_wf db = true ->
          (forall m, In m (meanings db) -> m_wordId m <= words_id_seq db) ->
          read_meanings db' (w_id row) = map stored_form done)
      /\ forall (now2 : Z) (again : Word) (options2 : CreateWordOptions),
           trim (lemma again) = trim (lemma newWord) ->
           createWord lower now2 again options2 db'
           = (inl (YaExiste (trim (lemma newWord))), db').
Proof.
  intros lower now newWord options db db' H.
  destruct (createWord_cases _ _ _ _ _ _ _ H)
    as [(_ & Hr & _)|[(f & _ & Hr & _)|[(_ & _ & _ & Hr)
        |(Hne & Hf & row & db1 & lres & Hi & Hl & Hr)]]];
    try discriminate Hr.
  destruct lres as [e|[]]; [|discriminate Hr]. injection Hr as <-.
  destruct (createWord_inserted _ _ _ _ _ _ _ _ _ Hf Hi Hl)
    as (Hwords & Hid & Hlem & Hfind & _).
  destruct (for_of_insertMeaning_failure _ _ _ _ _ _ Hl)
    as (done & bad & rest & Hv & Hb & _ & Hd).
  exists row, done, bad, rest.
  split; [exact Hwords|]. split; [exact Hlem|]. split; [exact Hv|].
  split; [exact Hb|]. split.
  - intros Hwf Hnone.
    destruct (insert_word_cases _ _ _ _ _ Hi) as (Hm1 & He1 & Hs1 & _).
    assert (Hd1 : db_wf db1 = true)
      by (rewrite (db_wf_same_rows _ _ Hm1 He1 Hs1); exact Hwf).
    destruct (for_of_insertMeaning_success now (w_id row) done _ _ Hd1 Hd)
      as (_ & Hread & _).
    rewrite Hread, (read_meanings_ext _ _ _ Hm1 He1).
    unfold read_meanings at 1, meanings_of.
    rewrite (filter_none _ _ (meanings db)); [reflexivity|].
    intros m Hin. apply Nat.eqb_neq. apply Hnone in Hin. lia.
  - intros now2 again options2 Ht. unfold createWord. rewrite Ht.
    destruct (trim (lemma newWord)) as [|c l]; [congruence|].
    unfold bind, lookup, throw. now rewrite Hfind.
Qed.

Lemma createWord_rejected_meaning_keeps_word_witness :
  createWord toLowerCase_latin1 3 word_perro_bad no_options (base tables_casa)
  = (inl (Rejected IntegerOutOfRange),
     snd (createWord toLowerCase_latin1 3 word_perro_bad no_options
            (base tables_casa)))
  /\ createWord toLowerCase_latin1 4 word_perro no_options
       (snd (createWord toLowerCase_latin1 3 word_perro_bad no_options
               (base tables_casa)))
     = (inl (YaExiste (trim (lemma word_perro_bad))),
        snd (createWord toLowerCase_latin1 3 word_perro_bad no_options
               (base tables_casa))).
Proof.
  assert (H : createWord toLowerCase_latin1 3 word_perro_bad no_options
                (base tables_casa)
              = (inl (Rejected IntegerOutOfRange),
                 snd (createWord toLowerCase_latin1 3 word_perro_bad no_options
                        (base tables_casa))))
    by (vm_compute; reflexivity).
  split; [exact H|].
  destruct (createWord_rejected_meaning_keeps_word toLowerCase_latin1 3
              word_perro_bad no_options (base tables_casa) _ H)
    as (row & done & bad & rest & _ & _ & _ & _ & _ & Hretry).
  apply Hretry. vm_compute. reflexivity.
Defined.

(** X4.  [createWord] keeps the lemmas of the stored words distinct,
    whatever its outcome. *)
Theorem createWord_keeps_lemmas_distinct :
  forall (lower : jsstring -> jsstring) (now : Z) (newWord : Word)
         (options : CreateWordOptions) (db : DB),
    lemmas_distinct db ->
    lemmas_distinct (snd (createWord lower now newWord options db)).
Proof.
  intros lower now newWord options db Hnd.
  destruct (createWord lower now newWord options db) as [res db'] eqn:H.
  simpl. unfold lemmas_distinct in *.
  destruct (createWord_cases _ _ _ _ _ _ _ H)
    as [(_ & _ & ->)|[(f & _ & _ & ->)|[(_ & _ & Hi & _)
        |(Hne & Hf & row & db1 & lres & Hi & Hl & _)]]];
    try assumption.
  - destruct (insert_word_cases _ _ _ _ _ Hi)
      as (_ & _ & _ & _ & _ & [[_ Hw]|(row & Hv & _)]);
      [now rewrite Hw|discriminate Hv].
  - destruct (createWord_inserted _ _ _ _ _ _ _ _ _ Hf Hi Hl)
      as (Hwords & _ & Hlem & _).
    rewrite Hwords, map_app. simpl. apply NoDup_snoc; [assumption|].
    intros Hin. apply in_map_iff in Hin. destruct Hin as (w & Heq & Hin).
    apply (findFirst_lemma_none _ _ Hf w Hin). congruence.
Qed.

Lemma createWord_keeps_lemmas_distinct_witness :
  lemmas_distinct (base tables_casa)
  /\ lemmas_distinct
       (snd (createWord toLowerCase_latin1 1 word_perro no_options
               (base tables_casa))).
Proof.
  assert (H : lemmas_distinct (base tables_casa)).
  { unfold lemmas_distinct. simpl. constructor; [intros []|constructor]. }
  split; [exact H|].
  exact (createWord_keeps_lemmas_distinct toLowerCase_latin1 1 word_perro
           no_options (base tables_casa) H).
Defined.

(** *** [updateWordByLemma] and the rest of the store *)

Lemma update_word_words (db db1 : DB) (id : nat) (u : WordUpdate) :
  update_word db id u = (inr tt, db1) ->
  words db1
  = map (fun w => if Nat.eqb (w_id w) id then apply_update u w else w)
        (words db)
  /\ users db1 = users db.
Proof.
  unfold update_word.
  destruct (match wu_assignedTo u with Some a => fk_user db a | None => true end);
    intros H; [|discriminate H].
  injection H as <-. simpl. auto.
Qed.

Lemma updated_words_others (u : WordUpdate) (id : nat) (ws : list WordRow) :
  filter (fun w => negb (Nat.eqb (w_id w) id))
    (map (fun w => if Nat.eqb (w_id w) id then apply_update u w else w) ws)
  = filter (fun w => negb (Nat.eqb (w_id w) id)) ws.
Proof.
  induction ws as [|w ws IH]; simpl; [reflexivity|].
  destruct (Nat.eqb (w_id w) id) eqn:E; simpl; rewrite E; simpl;
    [exact IH|now f_equal].
Qed.

Lemma updated_words_columns (A : Type) (col : WordRow -> A) (u : WordUpdate)
  (id : nat) (ws : list WordRow) :
  (forall w, col (apply_update u w) = col w) ->
  map col (map (fun w => if Nat.eqb (w_id w) id then apply_update u w else w) ws)
  = map col ws.
Proof.
  intros H. rewrite map_map. apply map_ext. intros w.
  destruct (Nat.eqb (w_id w) id); [apply H|reflexivity].
Qed.

(** What any run of [updateWordByLemma] that found its word and got its
    update through leaves in [words]. *)
Lemma updateWordByLemma_words (now : Z) (prevLemma : jsstring)
  (updatedWord : Word) (options : UpdateOptions) (db db' : DB)
  (res : error + unit) :
  updateWordByLemma now prevLemma updatedWord options db = (res, db') ->
  (db' = db /\ exists e, res = inl e)
  \/ exists row,
       findFirst_lemma db prevLemma = Some row
       /\ words db'
          = map (fun w => if Nat.eqb (w_id w) (w_id row)
                          then apply_update (updateData now updatedWord options) w
                          else w)
                (words db).
Proof.
  intros H. apply updateWordByLemma_cases in H.
  destruct H as [(_ & -> & ->)|(row & Hf & [(_ & -> & ->)|(db1 & Hu & Hl)])];
    [left; eauto|left; eauto|].
  right. exists row. split; [exact Hf|].
  destruct (update_word_words _ _ _ _ Hu) as [Hw _].
  pose proof (for_of_insertMeaning_words now (w_id row) (values updatedWord)
                (delete_meanings db1 (w_id row))) as (Hw' & _).
  rewrite Hl in Hw'. simpl in Hw'. rewrite Hw'. exact Hw.
Qed.

(** X5.  On a well-formed store, [updateWordByLemma] touches only the
    word it found: whatever its outcome, every other word row is what it
    was, and every other word is read back with the meanings and examples
    it had.  When no word has the lemma, the store is unchanged. *)
Theorem updateWordByLemma_leaves_other_words :
  forall (now : Z) (prevLemma : jsstring) (updatedWord : Word)
         (options : UpdateOptions) (db db' : DB) (res : error + unit),
    db_wf db = true ->
    updateWordByLemma now prevLemma updatedWord options db = (res, db') ->
    (findFirst_lemma db prevLemma = None -> db' = db)
    /\ forall row,
         findFirst_lemma db prevLemma = Some row ->
         other_words db' (w_id row) = other_words db (w_id row)
         /\ forall id', id' <> w_id row ->
              read_meanings db' id' = read_meanings db id'.
Proof.
  intros now prevLemma updatedWord options db db' res Hwf H.
  pose proof (updateWordByLemma_words _ _ _ _ _ _ _ H) as Hwords.
  apply updateWordByLemma_cases in H.
  destruct H as [(Hf & _ & ->)|(row & Hf & [(_ & _ & ->)|(db1 & Hu & Hl)])].
  - split; [reflexivity|]. intros row Hr. rewrite Hf in Hr. discriminate Hr.
  - split; [reflexivity|]. intros row' _. split; reflexivity.
  - split; [intros Hn; rewrite Hf in Hn; discriminate Hn|].
    intros row' Hr. rewrite Hf in Hr. injection Hr as <-. split.
    + destruct Hwords as [[-> _]|(row' & Hf' & Hw)]; [reflexivity|].
      rewrite Hf in Hf'. injection Hf' as <-.
      unfold other_words. rewrite Hw. apply updated_words_others.
    + intros id' Hne.
      destruct (update_word_cases _ _ _ _ _ Hu) as [[Hv _]|(_ & Hm & He & Hs)];
        [discriminate Hv|].
      destruct (for_of_insertMeaning_rows _ _ _ _ _ _ Hl)
        as (_ & addedM & addedE & HaM & HaE & HM & HE).
      assert (Hb2 : forall m,
                 In m (meanings (delete_meanings db1 (w_id row))) ->
                 m_id m <= meanings_id_seq (delete_meanings db1 (w_id row))).
      { intros m Hin. simpl in Hin. apply filter_In in Hin.
        destruct Hin as [Hin _]. rewrite Hm in Hin.
        apply db_wf_iff in Hwf. destruct Hwf as [Hb _].
        simpl. rewrite Hs. now apply Hb. }
      rewrite (read_meanings_other_added _ _ (w_id row) id' addedM addedE
                 Hb2 HaM HaE).
      * rewrite (delete_meanings_other _ _ _ Hne).
        apply read_meanings_ext; assumption.
      * eapply Forall_impl; [|exact HM]. cbv beta. intros m Hm'. apply Hm'.
      * eapply Forall_impl; [|exact HE]. cbv beta. intros e He'. apply He'.
      * exact Hne.
Qed.

Lemma updateWordByLemma_leaves_other_words_witness :
  db_wf (base tables_two) = true
  /\ edit_perro = (fst edit_perro, snd edit_perro)
  /\ read_meanings (snd edit_perro) 1 = read_meanings (base tables_two) 1.
Proof.
  assert (H1 : db_wf (base tables_two) = true) by (vm_compute; reflexivity).
  assert (H2 : edit_perro = (fst edit_perro, snd edit_perro))
    by (vm_compute; reflexivity).
  split; [exact H1|]. split; [exact H2|].
  destruct (updateWordByLemma_leaves_other_words 5 s_perro edit_out_of_range
              no_update_options (base tables_two) (snd edit_perro)
              (fst edit_perro) H1 H2)
    as [_ H].
  assert (Hf : findFirst_lemma (base tables_two) s_perro
               = Some (mkWordRow 2 s_perro (Some s_casa) [112%N] None
                         s_included None None 1 1))
    by (vm_compute; reflexivity).
  destruct (H _ Hf) as [_ Hread].
  apply Hread. discriminate.
Defined.

(** X6.  [updateWordByLemma] never changes the key, the letter, the
    variant, the creator or the creation time of any word, whatever its
    outcome: the letter is not derived again when the lemma changes.  When
    it succeeds, every row with the key of the word it found holds the
    submitted lemma, the submitted root (null when falsy) and the time of
    the call as its update time. *)
Theorem updateWordByLemma_keeps_letter :
  forall (now : Z) (prevLemma : jsstring) (updatedWord : Word)
         (options : UpdateOptions) (db db' : DB) (res : error + unit),
    updateWordByLemma now prevLemma updatedWord options db = (res, db') ->
    map w_id (words db') = map w_id (words db)
    /\ map w_letter (words db') = map w_letter (words db)
    /\ map w_variant (words db') = map w_variant (words db)
    /\ map w_createdBy (words db') = map w_createdBy (words db)
    /\ map w_createdAt (words db') = map w_createdAt (words db)
    /\ (res = inr tt ->
        exists row,
          findFirst_lemma db prevLemma = Some row
          /\ In (w_id row) (map w_id (words db'))
          /\ Forall (fun w => w_id w = w_id row ->
                              w_lemma w = lemma updatedWord
                              /\ w_root w = or_null (root updatedWord)
                              /\ w_updatedAt w = now)
                    (words db')).
Proof.
  intros now prevLemma updatedWord options db db' res H.
  pose proof (updateWordByLemma_words _ _ _ _ _ _ _ H) as Hwords.
  assert (Hcols :
    map w_id (words db') = map w_id (words db)
    /\ map w_letter (words db') = map w_letter (words db)
    /\ map w_variant (words db') = map w_variant (words db)
    /\ map w_createdBy (words db') = map w_createdBy (words db)
    /\ map w_createdAt (words db') = map w_createdAt (words db)).
  { destruct Hwords as [[-> _]|(row & _ & ->)]; [repeat split|].
    repeat split; apply updated_words_columns; reflexivity. }
  destruct Hcols as (H1 & H2 & H3 & H4 & H5).
  repeat (split; [assumption|]).
  intros ->. apply updateWordByLemma_cases in H.
  destruct H as [(_ & Hr & _)|(row & Hf & [(_ & Hr & _)|(db1 & Hu & Hl)])];
    try discriminate Hr.
  exists row. split; [exact Hf|]. split.
  - rewrite H1. apply in_map. now apply findFirst_lemma_some in Hf.
  - destruct Hwords as [[_ [e He]]|(row' & Hf' & Hw)]; [discriminate He|].
    rewrite Hf in Hf'. injection Hf' as <-. rewrite Hw.
    apply Forall_forall. intros w Hin Hid.
    apply in_map_iff in Hin. destruct Hin as (w0 & Hw0 & _).
    destruct (Nat.eqb (w_id w0) (w_id row)) eqn:E.
    + subst w. simpl. auto.
    + subst w. apply Nat.eqb_neq in E. contradiction.
Qed.

Lemma updateWordByLemma_keeps_letter_witness :
  rename_perro = (inr tt, snd rename_perro)
  /\ map w_letter (words (snd rename_perro))
     = map w_letter (words (base tables_two)).
Proof.
  assert (H : rename_perro = (inr tt, snd rename_perro))
    by (vm_compute; reflexivity).
  split; [exact H|].
  exact (proj1 (proj2
           (updateWordByLemma_keeps_letter 6 s_perro (mkWord s_X Null [])
              no_update_options (base tables_two) (snd rename_perro) (inr tt)
              H))).
Defined.

(** *** [deleteWordByLemma] *)

Lemma filter_filter_implied (A : Type) (f g : A -> bool) (l : list A) :
  (forall x, f x = true -> g x = true) ->
  filter f (filter g l) = filter f l.
Proof.
  intros H. induction l as [|a l IH]; simpl; [reflexivity|].
  destruct (g a) eqn:Eg; simpl.
  - destruct (f a); [f_equal|]; exact IH.
  - destruct (f a) eqn:Ef; [|exact IH].
    apply H in Ef. congruence.
Qed.

Lemma NoDup_map_filter (A B : Type) (f : A -> B) (g : A -> bool) (l : list A) :
  NoDup (map f l) -> NoDup (map f (filter g l)).
Proof.
  induction l as [|a l IH]; simpl; intros H; [constructor|].
  inversion H as [|? ? Ha Hl]; subst.
  destruct (g a); simpl; [|now apply IH].
  constructor; [|now apply IH].
  intros Hin. apply Ha. apply in_map_iff in Hin.
  destruct Hin as (x & Hx & Hin). apply filter_In in Hin.
  apply in_map_iff. exists x. tauto.
Qed.

Lemma NoDup_map_inj (A B : Type) (f : A -> B) (l : list A) (a b : A) :
  NoDup (map f l) -> In a l -> In b l -> f a = f b -> a = b.
Proof.
  induction l as [|x l IH]; simpl; intros H Ha Hb Heq; [contradiction|].
  inversion H as [|? ? Hx Hl]; subst.
  destruct Ha as [->|Ha], Hb as [->|Hb].
  - reflexivity.
  - exfalso. apply Hx. rewrite Heq. now apply in_map.
  - exfalso. apply Hx. rewrite <- Heq. now apply in_map.
  - now apply IH.
Qed.

Lemma deleteWordByLemma_success (l : jsstring) (t t' : Tables) :
  deleteWordByLemma l t = (inr tt, t') ->
  exists row,
    findFirst_lemma (base t) l = Some row /\ t' = delete_word t (w_id row).
Proof.
  unfold deleteWordByLemma.
  destruct (findFirst_lemma (base t) l) as [row|]; intros H;
    [|discriminate H].
  injection H as <-. now exists row.
Qed.

Lemma delete_word_wf (t : Tables) (id : nat) :
  tables_wf t = true -> tables_wf (delete_word t id) = true.
Proof.
  intros Hwf. apply tables_wf_iff in Hwf.
  destruct Hwf as (Hd & Hw & Hm & Hn).
  apply tables_wf_iff. unfold delete_word. simpl.
  split; [|split; [|split]].
  - pose proof (delete_meanings_wf (base t) id Hd) as H.
    unfold db_wf in *. exact H.
  - intros w Hin. apply filter_In in Hin. now apply Hw.
  - intros m Hin. apply filter_In in Hin. destruct Hin as [Hin Hne].
    destruct (Hm m Hin) as (w & Hwin & Heq). exists w.
    split; [|exact Heq]. apply filter_In. split; [exact Hwin|].
    now rewrite Heq.
  - intros n Hin. apply filter_In in Hin. destruct Hin as [Hin Hne].
    destruct (Hn n Hin) as (Hle & w & Hwin & Heq). split; [exact Hle|].
    exists w. split; [|exact Heq]. apply filter_In. split; [exact Hwin|].
    now rewrite Heq.
Qed.

(** X7.  When no stored word has the lemma, [deleteWordByLemma],
    [addNoteToWord] and [updateWordByLemma] each fail with the error that
    names the lemma as not found, and leave every table as it was. *)
Theorem lemma_not_stored_is_reported :
  forall (now : Z) (l : jsstring) (note : jsstring) (userId : option nat)
         (updatedWord : Word) (options : UpdateOptions) (t : Tables),
    (forall w, In w (words (base t)) -> w_lemma w <> l) ->
    deleteWordByLemma l t = (inl (WordNotFound l), t)
    /\ addNoteToWord now l note userId t = (inl (Thrown (WordNotFound l)), t)
    /\ lift (updateWordByLemma now l updatedWord options) t
       = (inl (WordNotFound l), t).
Proof.
  intros now l note userId updatedWord options t H.
  pose proof (findFirst_lemma_absent _ _ H) as Hf.
  unfold deleteWordByLemma, addNoteToWord, lift, updateWordByLemma, bind,
    lookup, throw.
  rewrite Hf. destruct t; simpl. auto.
Qed.

Lemma lemma_not_stored_is_reported_witness :
  (forall w, In w (words (base tables_two)) -> w_lemma w <> s_X)
  /\ deleteWordByLemma s_X tables_two = (inl (WordNotFound s_X), tables_two).
Proof.
  assert (H : forall w, In w (words (base tables_two)) -> w_lemma w <> s_X).
  { intros w [<-|[<-|[]]]; discriminate. }
  split; [exact H|].
  exact (proj1 (lemma_not_stored_is_reported 0 s_X s_nota None word_casa
                  no_update_options tables_two H)).
Defined.

(** X8.  On a well-formed store, a successful [deleteWordByLemma] removes
    the first word with the lemma together with everything that hangs on
    it: no word row has its key any more, the key has no meanings and no
    notes left, and the store is still well formed, so that no example,
    meaning or note is left without its parent.  The rows of every other
    word, its meanings with their examples, and its notes are what they
    were. *)
Theorem deleteWordByLemma_cascades :
  forall (l : jsstring) (t t' : Tables),
    tables_wf t = true ->
    deleteWordByLemma l t = (inr tt, t') ->
    exists row,
      findFirst_lemma (base t) l = Some row
      /\ words (base t') = other_words (base t) (w_id row)
      /\ (forall w, In w (words (base t')) -> w_id w <> w_id row)
      /\ read_meanings (base t') (w_id row) = []
      /\ notes_of t' (w_id row) = []
      /\ tables_wf t' = true
      /\ forall id', id' <> w_id row ->
           read_meanings (base t') id' = read_meanings (base t) id'
           /\ notes_of t' id' = notes_of t id'.
Proof.
  intros l t t' Hwf H.
  destruct (deleteWordByLemma_success _ _ _ H) as (row & Hf & ->).
  exists row. split; [exact Hf|].
  split; [reflexivity|]. split; [|split; [|split; [|split]]].
  - intros w Hin. simpl in Hin. apply filter_In in Hin.
    destruct Hin as [_ Hne]. apply negb_true_iff in Hne.
    now apply Nat.eqb_neq.
  - rewrite (read_meanings_ext (delete_meanings (base t) (w_id row)) (base (delete_word t (w_id row))));
      [|reflexivity|reflexivity].
    unfold read_meanings.
    destruct (delete_meanings_none_left (base t) (w_id row)) as [-> _].
    reflexivity.
  - unfold notes_of, delete_word. simpl. apply filter_none.
    intros n Hin. apply filter_In in Hin. destruct Hin as [_ Hne].
    now apply negb_true_iff in Hne.
  - now apply delete_word_wf.
  - intros id' Hne. split.
    + rewrite (read_meanings_ext (delete_meanings (base t) (w_id row)) (base (delete_word t (w_id row))));
        [|reflexivity|reflexivity].
      now apply delete_meanings_other.
    + unfold notes_of, delete_word. simpl. apply filter_filter_implied.
      intros n Hn. apply Nat.eqb_eq in Hn. apply negb_true_iff.
      apply Nat.eqb_neq. congruence.
Qed.

Lemma deleteWordByLemma_cascades_witness :
  tables_wf tables_noted = true
  /\ deleteWordByLemma s_perro tables_noted
     = (inr tt, snd (deleteWordByLemma s_perro tables_noted))
  /\ read_meanings (base (snd (deleteWordByLemma s_perro tables_noted))) 1
     = read_meanings (base tables_noted) 1.
Proof.
  assert (H1 : tables_wf tables_noted = true) by (vm_compute; reflexivity).
  assert (H2 : deleteWordByLemma s_perro tables_noted
               = (inr tt, snd (deleteWordByLemma s_perro tables_noted)))
    by (vm_compute; reflexivity).
  split; [exact H1|]. split; [exact H2|].
  destruct (deleteWordByLemma_cascades s_perro tables_noted _ H1 H2)
    as (row & Hf & _ & _ & _ & _ & _ & Hothers).
  assert (Hrow : findFirst_lemma (base tables_noted) s_perro
                 = Some (mkWordRow 2 s_perro (Some s_casa) [112%N] None
                           s_included None None 1 1))
    by (vm_compute; reflexivity).
  rewrite Hrow in Hf. injection Hf as <-.
  apply Hothers. discriminate.
Defined.

(** X9.  On a well-formed store, deleting by its returned lemma the word
    that a successful [createWord] has just created gives back the words,
    meanings, examples, notes and users there were before the creation:
    the row, its meanings and their examples are all removed again. *)
Theorem createWord_then_delete :
  forall (lower : jsstring -> jsstring) (now : Z) (newWord : Word)
         (options : CreateWordOptions) (t t1 : Tables) (r : Created),
    tables_wf t = true ->
    lift (createWord lower now newWord options) t = (inr r, t1) ->
    exists t2,
      deleteWordByLemma (created_lemma r) t1 = (inr tt, t2)
      /\ words (base t2) = words (base t)
      /\ meanings (base t2) = meanings (base t)
      /\ examples (base t2) = examples (base t)
      /\ users (base t2) = users (base t)
      /\ notes t2 = notes t.
Proof.
  intros lower now newWord options t t1 r Hwf H.
  apply lift_inv in H. destruct H as (H & Hn & _).
  pose proof Hwf as Hwf0.
  apply tables_wf_iff in Hwf. destruct Hwf as (Hd & Hw & Hm & Hnotes).
  destruct (createWord_cases _ _ _ _ _ _ _ H)
    as [(_ & Hr & _)|[(f & _ & Hr & _)|[(_ & _ & _ & Hr)
        |(Hne & Hf & row & db1 & lres & Hi & Hl & Hr)]]];
    try discriminate Hr.
  destruct lres as [e|[]]; [discriminate Hr|]. injection Hr as ->.
  destruct (createWord_inserted _ _ _ _ _ _ _ _ _ Hf Hi Hl)
    as (Hwords & Hid & Hlem & Hfind & Hu & _).
  destruct (insert_word_cases _ _ _ _ _ Hi) as (Hm1 & He1 & Hs1 & _).
  destruct (for_of_insertMeaning_rows _ _ _ _ _ _ Hl)
    as (_ & addedM & addedE & HaM & HaE & HM & HE).
  rewrite Hm1 in HaM. rewrite He1 in HaE. rewrite Hs1 in HM, HE.
  apply db_wf_iff in Hd. destruct Hd as [Hbm Hfe].
  eexists. unfold deleteWordByLemma. simpl created_lemma. rewrite Hfind.
  split; [reflexivity|].
  unfold delete_word, delete_meanings. simpl.
  assert (Hkept : filter (fun m => negb (Nat.eqb (m_wordId m) (w_id row)))
                    (meanings (base t1))
                  = meanings (base t)).
  { rewrite HaM, filter_app, (filter_none _ _ addedM), app_nil_r.
    - apply filter_all. intros m Hin. apply negb_true_iff, Nat.eqb_neq.
      destruct (Hm m Hin) as (w & Hwin & <-). apply Hw in Hwin. lia.
    - intros m Hin. apply negb_false_iff, Nat.eqb_eq.
      rewrite Forall_forall in HM. now apply HM. }
  rewrite Hkept.
  split; [|split; [reflexivity|split; [|split; [exact Hu|]]]].
  - rewrite Hwords, filter_app. simpl. rewrite Nat.eqb_refl. simpl.
    rewrite app_nil_r. apply filter_all. intros w Hin.
    apply negb_true_iff, Nat.eqb_neq. apply Hw in Hin. lia.
  - rewrite HaE, filter_app, (filter_none _ _ addedE), app_nil_r.
    + apply filter_all. intros e Hin. apply existsb_exists.
      destruct (Hfe e Hin) as (m & Hmin & Heq). exists m.
      split; [exact Hmin|]. now apply Nat.eqb_eq.
    + intros e Hin. rewrite Forall_forall in HE. apply HE in Hin.
      destruct Hin as [Hlt _].
      destruct (existsb _ _) eqn:Ex; [|reflexivity].
      apply existsb_exists in Ex. destruct Ex as (m & Hmin & Heq).
      apply Nat.eqb_eq in Heq. apply Hbm in Hmin. lia.
  - rewrite Hn. apply filter_all. intros n Hin.
    apply negb_true_iff, Nat.eqb_neq.
    destruct (Hnotes n Hin) as (_ & w & Hwin & <-). apply Hw in Hwin. lia.
Qed.

Lemma createWord_then_delete_witness :
  tables_wf tables_casa = true
  /\ created_perro = (inr (mkCreated 2 s_perro [112%N]), tables_two)
  /\ exists t2,
       deleteWordByLemma s_perro tables_two = (inr tt, t2)
       /\ words (base t2) = words (base tables_casa)
       /\ meanings (base t2) = meanings (base tables_casa)
       /\ examples (base t2) = examples (base tables_casa)
       /\ users (base t2) = users (base tables_casa)
       /\ notes t2 = notes tables_casa.
Proof.
  assert (H1 : tables_wf tables_casa = true) by (vm_compute; reflexivity).
  assert (H2 : created_perro = (inr (mkCreated 2 s_perro [112%N]), tables_two))
    by (vm_compute; reflexivity).
  split; [exact H1|]. split; [exact H2|].
  exact (createWord_then_delete toLowerCase_latin1 1 word_perro no_options
           tables_casa tables_two (mkCreated 2 s_perro [112%N]) H1 H2).
Defined.

(** X10.  While the stored lemmas are distinct, a successful
    [deleteWordByLemma] leaves no word with that lemma: the lemmas stay
    distinct, and a second [deleteWordByLemma] or an [addNoteToWord] for
    the lemma fails with the not-found error and changes nothing. *)
Theorem deleteWordByLemma_twice :
  forall (l : jsstring) (t t' : Tables),
    lemmas_distinct (base t) ->
    deleteWordByLemma l t = (inr tt, t') ->
    lemmas_distinct (base t')
    /\ findFirst_lemma (base t') l = None
    /\ deleteWordByLemma l t' = (inl (WordNotFound l), t')
    /\ forall now note userId,
         addNoteToWord now l note userId t'
         = (inl (Thrown (WordNotFound l)), t').
Proof.
  intros l t t' Hnd H.
  destruct (deleteWordByLemma_success _ _ _ H) as (row & Hf & ->).
  apply findFirst_lemma_some in Hf. destruct Hf as [Hin Hlem].
  assert (Hnone : findFirst_lemma (base (delete_word t (w_id row))) l = None).
  { apply findFirst_lemma_absent. simpl. intros w Hw Heq.
    apply filter_In in Hw. destruct Hw as [Hw Hne].
    apply negb_true_iff, Nat.eqb_neq in Hne. apply Hne.
    rewrite (NoDup_map_inj _ _ w_lemma _ w row Hnd Hw Hin); congruence. }
  split; [|split; [exact Hnone|split]].
  - unfold lemmas_distinct in *. simpl. now apply NoDup_map_filter.
  - unfold deleteWordByLemma. now rewrite Hnone.
  - intros now note userId. unfold addNoteToWord. now rewrite Hnone.
Qed.

Lemma deleteWordByLemma_twice_witness :
  lemmas_distinct (base tables_noted)
  /\ deleteWordByLemma s_perro (snd (deleteWordByLemma s_perro tables_noted))
     = (inl (WordNotFound s_perro), snd (deleteWordByLemma s_perro tables_noted)).
Proof.
  assert (H1 : lemmas_distinct (base tables_noted)).
  { unfold lemmas_distinct. simpl.
    constructor; [intros [E|[]]; discriminate E|].
    constructor; [intros []|constructor]. }
  assert (H2 : deleteWordByLemma s_perro tables_noted
               = (inr tt, snd (deleteWordByLemma s_perro tables_noted)))
    by (vm_compute; reflexivity).
  split; [exact H1|].
  exact (proj1 (proj2 (proj2
           (deleteWordByLemma_twice s_perro tables_noted _ H1 H2)))).
Defined.

(** *** The store stays well formed *)

Lemma word_key_stored (ws : list WordRow) (x : nat) :
  (exists w, In w ws /\ w_id w = x) <-> In x (map w_id ws).
Proof.
  rewrite in_map_iff. split; intros (w & H1 & H2); exists w; tauto.
Qed.

Lemma tables_wf_keys (t : Tables) :
  tables_wf t = true <->
  db_wf (base t) = true
  /\ (forall x, In x (map w_id (words (base t))) ->
        x <= words_id_seq (base t))
  /\ (forall m, In m (meanings (base t)) ->
        In (m_wordId m) (map w_id (words (base t))))
  /\ (forall n, In n (notes t) ->
        n_id n <= notes_id_seq t
        /\ In (n_wordId n) (map w_id (words (base t)))).
Proof.
  rewrite tables_wf_iff. split; intros (Hd & Hw & Hm & Hn);
    (split; [exact Hd|]); (split; [|split]).
  - intros x Hin. apply in_map_iff in Hin. destruct Hin as (w & <- & Hin).
    now apply Hw.
  - intros m Hin. apply word_key_stored. now apply Hm.
  - intros n Hin. destruct (Hn n Hin) as [Hle Hex]. split; [exact Hle|].
    now apply word_key_stored.
  - intros w Hin. apply Hw. now apply in_map.
  - intros m Hin. apply word_key_stored. now apply Hm.
  - intros n Hin. destruct (Hn n Hin) as [Hle Hex]. split; [exact Hle|].
    now apply word_key_stored.
Qed.



Lemma addNoteToWord_cases (now : Z) (l note : jsstring) (userId : option nat)
  (t t' : Tables) (res : note_error + CreatedNote) :
  addNoteToWord now l note userId t = (res, t') ->
  (findFirst_lemma (base t) l = None
   /\ res = inl (Thrown (WordNotFound l)) /\ t' = t)
  \/ exists row,
       findFirst_lemma (base t) l = Some row
       /\ ((fk_user (base t) userId = false
            /\ res = inl (Thrown (Rejected ForeignKey))
            /\ t' = mkTables (base t) (notes t) (S (notes_id_seq t)))
           \/ (fk_user (base t) userId = true
               /\ t' = mkTables (base t)
                         (notes t
                          ++ [mkNoteRow (S (notes_id_seq t)) (w_id row) userId
                                note false now])
                         (S (notes_id_seq t))
               /\ exists created,
                    res = inr created
                    /\ findFirst_note t' (S (notes_id_seq t)) = Some created)).
Proof.
  unfold addNoteToWord.
  destruct (findFirst_lemma (base t) l) as [row|].
  - intros H. right. exists row. split; [reflexivity|].
    unfold insert_note in H.
    destruct (fk_user (base t) userId) eqn:Efk.
    + right. split; [reflexivity|].
      match type of H with
      | context [findFirst_note ?t1 ?i] =>
          destruct (findFirst_note t1 i) as [created|] eqn:En
      end.
      * injection H as <- <-. split; [reflexivity|]. now exists created.
      * exfalso. unfold findFirst_note in En. simpl in En.
        rewrite find_snoc in En.
        destruct (find _ (notes t)); [discriminate En|].
        simpl in En. rewrite Nat.eqb_refl in En. discriminate En.
    + left. injection H as <- <-. auto.
  - intros H. injection H as <- <-. left. auto.
Qed.



(** X12.  [addNoteToWord] never fails with 'Failed to retrieve the created
    note'.  On a well-formed store, when it succeeds it returns the note it
    has just inserted, attached to the first word with the lemma, with the
    given text and author, unresolved, under the next key of the sequence;
    that note is added at the end of the word's notes and nothing else in
    the store changes. *)
Theorem addNoteToWord_returns_inserted_note :
  forall (now : Z) (l note : jsstring) (userId : option nat)
         (t t' : Tables) (res : note_error + CreatedNote),
    tables_wf t = true ->
    addNoteToWord now l note userId t = (res, t') ->
    res <> inl FailedToRetrieve
    /\ forall created,
         res = inr created ->
         exists row,
           findFirst_lemma (base t) l = Some row
           /\ cn_note created
              = mkNoteRow (S (notes_id_seq t)) (w_id row) userId note false now
           /\ cn_user created = userId
           /\ base t' = base t
           /\ notes t' = notes t ++ [cn_note created]
           /\ notes_of t' (w_id row)
              = notes_of t (w_id row) ++ [cn_note created].
Proof.
  intros now l note userId t t' res Hwf H.
  apply addNoteToWord_cases in H.
  apply tables_wf_keys in Hwf. destruct Hwf as (_ & _ & _ & Hn).
  destruct H as [(_ & -> & _)
                |(row & Hf & [(_ & -> & _)|(Hfk & -> & created & -> & Hc)])].
  - split; [discriminate|]. intros c Hc. discriminate Hc.
  - split; [discriminate|]. intros c Hc. discriminate Hc.
  - split; [discriminate|]. intros c Hc'. injection Hc' as <-.
    exists row. split; [exact Hf|].
    unfold findFirst_note in Hc. simpl in Hc. rewrite find_snoc in Hc.
    rewrite (find_absent _ _ (notes t)) in Hc.
    + simpl in Hc. rewrite Nat.eqb_refl in Hc. injection Hc as <-. simpl.
      split; [reflexivity|]. split; [|split; [reflexivity|split]].
      * destruct userId as [u|]; [|reflexivity].
        simpl in Hfk. destruct (find (Nat.eqb u) (users (base t))) as [u'|] eqn:E.
        -- apply find_some in E. destruct E as [_ E].
           apply Nat.eqb_eq in E. now subst.
        -- apply existsb_exists in Hfk. destruct Hfk as (x & Hx & Hux).
           pose proof (find_none _ _ E x Hx) as Hno. simpl in Hno. congruence.
      * reflexivity.
      * unfold notes_of. simpl. rewrite filter_app. simpl.
        now rewrite Nat.eqb_refl.
    + intros n Hin. apply Nat.eqb_neq. apply Hn in Hin. lia.
Qed.

Lemma addNoteToWord_returns_inserted_note_witness :
  tables_wf tables_two = true
  /\ noted = (fst noted, tables_noted)
  /\ fst noted <> inl FailedToRetrieve.
Proof.
  assert (H1 : tables_wf tables_two = true) by (vm_compute; reflexivity).
  assert (H2 : noted = (fst noted, tables_noted)) by (vm_compute; reflexivity).
  split; [exact H1|]. split; [exact H2|].
  exact (proj1 (addNoteToWord_returns_inserted_note 2 s_perro s_nota (Some 7)
                  tables_two tables_noted (fst noted) H1 H2)).
Defined.

(* ================================================================== *)
(** ** Further properties of the search page                           *)
(* ================================================================== *)

Lemma values_eqb_eq (a b : list jsstring) : values_eqb a b = true <-> a = b.
Proof.
  revert b; induction a as [|x a IH]; intros [|y b]; simpl; split;
    try easy.
  - intros H. apply andb_true_iff in H as [Hx Hr].
    apply str_eqb_eq in Hx. apply IH in Hr. congruence.
  - intros H. injection H as -> ->. rewrite str_eqb_refl. now apply IH.
Qed.

Lemma filtersChanged_false (a b : LocalSearchFilters) :
  filtersChanged a b = false -> b = a.
Proof.
  unfold filtersChanged. intros H.
  repeat (apply orb_false_iff in H; destruct H as [H ?]).
  repeat match goal with
         | E : negb _ = false |- _ =>
             apply negb_false_iff in E; apply values_eqb_eq in E
         end.
  simpl in *.
  repeat match goal with
         | E : _ || _ = false |- _ =>
             apply orb_false_iff in E; destruct E as [? E]
         end.
  repeat match goal with
         | E : negb _ = false |- _ =>
             apply negb_false_iff in E; apply values_eqb_eq in E
         end.
  destruct a as [ca oa la da [a1 a2 a3 a4 a5 a6 a7]],
           b as [cb ob lb db [b1 b2 b3 b4 b5 b6 b7]].
  simpl in *. congruence.
Qed.

Lemma cloneFilters_same (f : LocalSearchFilters) : cloneFilters f = f.
Proof. destruct f; reflexivity. Qed.

Lemma executeSearch_call_state (q : jsstring) (f : LocalSearchFilters)
  (n : option Z) (p : Page) :
  searchState (fst (executeSearch_call q f n p))
  = mkSearchState q f (ss_status (searchState p)) (ss_assignedTo (searchState p))
  /\ nextStateSnapshot (snd (executeSearch_call q f n p))
     = Some (searchState (fst (executeSearch_call q f n p))).
Proof.
  unfold executeSearch_call, updateState, updateStateIfChanged. simpl.
  destruct (filtersChanged (ss_filters (searchState p)) f) eqn:Ef;
    destruct (str_eqb (ss_query (searchState p)) q) eqn:Eq; simpl;
    try (rewrite cloneFilters_same); split; try reflexivity.
  all: apply filtersChanged_false in Ef; subst f.
  - apply str_eqb_eq in Eq. subst q. now destruct (searchState p).
  - reflexivity.
Qed.

(** X13.  Once [executeSearch] has been called, the search state holds
    exactly the query and (with [filtersChanged] the per-category
    comparison) the filters that are being searched, with its status and
    assignee untouched; the request has taken the next token, the page
    shows as loading, what it displays is unchanged, and the snapshot kept
    for [saveFilters] is that search state. *)
Theorem executeSearch_syncs_search_state :
  forall (q : jsstring) (f : LocalSearchFilters) (n : option Z) (p : Page),
    let p' := fst (executeSearch_call q f n p) in
    let k := snd (executeSearch_call q f n p) in
    searchState p'
    = mkSearchState q f (ss_status (searchState p))
        (ss_assignedTo (searchState p))
    /\ nextStateSnapshot k = Some (searchState p')
    /\ requestId k = latestRequestRef p + 1
    /\ latestRequestRef p' = requestId k
    /\ isLoading p' = true
    /\ display p' = display p.
Proof.
  intros q f n p p' k.
  destruct (executeSearch_call_state q f n p) as [Hs Hk].
  split; [exact Hs|]. split; [exact Hk|]. repeat split.
Qed.

Lemma handlePageChange_in_range (n : Z) (p : Page) :
  (1 <= n)%Z -> (n <= pg_totalPages (pagination p))%Z ->
  handlePageChange n p
  = (fst (executeSearch_call (ss_query (searchState p))
            (ss_filters (searchState p)) (Some n) p),
     Some (snd (executeSearch_call (ss_query (searchState p))
                  (ss_filters (searchState p)) (Some n) p))).
Proof.
  intros H1 H2. unfold handlePageChange.
  assert (E1 : (n <? 1)%Z = false) by (apply Z.ltb_ge; lia).
  assert (E2 : (pg_totalPages (pagination p) <? n)%Z = false)
    by (apply Z.ltb_ge; lia).
  now rewrite E1, E2.
Qed.

(** X14.  [handlePageChange] ignores a page below 1 or above the number of
    pages: nothing is searched and the page state is as it was.  For a
    page within these bounds it starts one search, under the next token,
    for the current query and filters on that page, and leaves the search
    state as it is; when that search succeeds as the latest one, the page
    asked for is the current page. *)
Theorem handlePageChange_within_bounds_only :
  forall (n : Z) (p : Page),
    ((n < 1)%Z \/ (pg_totalPages (pagination p) < n)%Z ->
     handlePageChange n p = (p, None))
    /\ ((1 <= n)%Z -> (n <= pg_totalPages (pagination p))%Z ->
        exists p' k,
          handlePageChange n p = (p', Some k)
          /\ requestId k = latestRequestRef p + 1
          /\ page k = n
          /\ query k = ss_query (searchState p)
          /\ filters k = ss_filters (searchState p)
          /\ searchState p' = searchState p
          /\ forall d, currentPage (step p' (Settle k (inr d))) = n).
Proof.
  intros n p. split.
  - intros H. unfold handlePageChange.
    destruct H as [H|H].
    + assert (E : (n <? 1)%Z = true) by (apply Z.ltb_lt; lia).
      now rewrite E.
    + assert (E : (pg_totalPages (pagination p) <? n)%Z = true)
        by (apply Z.ltb_lt; lia).
      rewrite E. now rewrite orb_true_r.
  - intros H1 H2. rewrite (handlePageChange_in_range n p H1 H2).
    eexists. eexists. split; [reflexivity|].
    destruct (executeSearch_call_state (ss_query (searchState p))
                (ss_filters (searchState p)) (Some n) p) as [Hs _].
    repeat split.
    + rewrite Hs. now destruct (searchState p).
    + intros d. unfold step.
      rewrite executeSearch_resume_success; reflexivity.
Qed.

Lemma handlePageChange_within_bounds_only_witness :
  handlePageChange 4 page_results = (page_results, None)
  /\ exists p' k,
       handlePageChange 3 page_results = (p', Some k)
       /\ requestId k = latestRequestRef page_results + 1
       /\ page k = 3%Z
       /\ query k = ss_query (searchState page_results)
       /\ filters k = ss_filters (searchState page_results)
       /\ searchState p' = searchState page_results
       /\ forall d, currentPage (step p' (Settle k (inr d))) = 3%Z.
Proof.
  destruct (handlePageChange_within_bounds_only 4 page_results) as [H1 _].
  destruct (handlePageChange_within_bounds_only 3 page_results) as [_ H2].
  split.
  - apply H1. right. simpl. lia.
  - apply H2; simpl; lia.
Defined.

(** X15.  [handleClearAll] empties what the page displays and re-arms the
    initial search, but it leaves the request counter as it is: the search
    that was the latest before the clearing is still the latest after it,
    and when it succeeds its results, total, pagination, page and query
    are displayed, the page counts as searched again and the search state
    of that search is passed to [saveFilters]. *)
Theorem handleClearAll_keeps_search_in_flight :
  forall (clearAll : SearchState * option SearchState
                     -> SearchState * option SearchState)
         (c : Component) (k : Pending) (d : SearchData),
    requestId k = latestRequestRef (cells c) ->
    let c' := handleClearAll clearAll c in
    display (cells c') = mkDisplay [] 0 (mkPagination 0 false false) 1 []
    /\ hasSearched (cells c') = false
    /\ isLoading (cells c') = false
    /\ initialSearchTriggeredRef c' = false
    /\ latestRequestRef (cells c') = latestRequestRef (cells c)
    /\ display (step (cells c') (Settle k (inr d)))
       = mkDisplay (results d) (total d)
           (mkPagination (totalPages d) (hasNext d) (hasPrev d))
           (page k) (query k)
    /\ hasSearched (step (cells c') (Settle k (inr d))) = true
    /\ forall s, nextStateSnapshot k = Some s ->
         savedFilters (step (cells c') (Settle k (inr d))) = Some s.
Proof.
  intros clearAll c k d Hk c'.
  do 5 (split; [reflexivity|]).
  assert (Hk' : requestId k = latestRequestRef (cells c')) by exact Hk.
  unfold step. rewrite (executeSearch_resume_success k d (cells c') Hk').
  split; [reflexivity|]. split; [reflexivity|].
  intros s Hs. simpl. now rewrite Hs.
Qed.

Lemma handleClearAll_keeps_search_in_flight_witness :
  requestId requestB = latestRequestRef pageB
  /\ display (step (cells (handleClearAll clear_state (mkComponent pageB true)))
                (Settle requestB (inr dataB)))
     = mkDisplay (results dataB) (total dataB)
         (mkPagination (totalPages dataB) (hasNext dataB) (hasPrev dataB))
         2%Z s_B.
Proof.
  assert (H : requestId requestB = latestRequestRef pageB) by reflexivity.
  split; [exact H|].
  exact (proj1 (proj2 (proj2 (proj2 (proj2 (proj2
           (handleClearAll_keeps_search_in_flight clear_state
              (mkComponent pageB true) requestB dataB H))))))).
Defined.

(** *** Criteria *)

Lemma nonempty_false (A : Type) (l : list A) :
  Nat.ltb 0 (length l) = false <-> l = [].
Proof. destruct l; simpl; split; intros H; easy. Qed.

Lemma no_marker_criteria (m : Markers (list jsstring)) :
  existsb (fun key => Nat.ltb 0 (length (marker_get m key))) MEANING_MARKER_KEYS
  = false
  <-> forall key, marker_get m key = [].
Proof.
  split.
  - intros H key. simpl in H.
    repeat (apply orb_false_iff in H; destruct H as [? H]).
    destruct key; apply nonempty_false; assumption.
  - intros H. apply existsb_none. intros key. apply nonempty_false. apply H.
Qed.

Lemma stateHasCriteria_editor (s : SearchState) :
  stateHasCriteria s true
  = stateHasCriteria s false
    || (Nat.ltb 0 (length (ss_status s))
        || Nat.ltb 0 (length (ss_assignedTo s))).
Proof.
  unfold stateHasCriteria. rewrite andb_false_l, andb_true_l.
  now rewrite orb_false_r.
Qed.

(** X16.  A search state has no criteria in public mode exactly when its
    query and every filter category, markers included, are empty.  In
    editor mode it has criteria exactly when it has them in public mode or
    its status or assignee list is not empty; so after
    [clearAdditionalFilters] both modes agree, and changing the status or
    the assignees never changes the public criteria. *)
Theorem stateHasCriteria_characterised :
  forall s : SearchState,
    (stateHasCriteria s false = false <->
     ss_query s = []
     /\ categories (ss_filters s) = []
     /\ origins (ss_filters s) = []
     /\ letters (ss_filters s) = []
     /\ dictionaries (ss_filters s) = []
     /\ forall key, marker_get (markers (ss_filters s)) key = [])
    /\ (stateHasCriteria s true = true <->
        stateHasCriteria s false = true
        \/ ss_status s <> [] \/ ss_assignedTo s <> [])
    /\ stateHasCriteria (commit s (clearAdditionalFilters s)) true
       = stateHasCriteria s false
    /\ (forall v, stateHasCriteria (commit s (handleStatusChange v s)) false
                  = stateHasCriteria s false)
    /\ (forall vs, stateHasCriteria (commit s (handleAssignedChange vs s)) false
                   = stateHasCriteria s false).
Proof.
  intros s. split; [|split; [|split; [|split]]].
  - unfold stateHasCriteria. rewrite andb_false_l, orb_false_r.
    rewrite !orb_false_iff, !nonempty_false, no_marker_criteria. tauto.
  - rewrite stateHasCriteria_editor.
    destruct (stateHasCriteria s false); simpl; [split; auto|].
    destruct (ss_status s) as [|x xs], (ss_assignedTo s) as [|y ys]; simpl;
      split; intros H; try reflexivity; try discriminate H.
    + destruct H as [H|[H|H]]; [discriminate H|now elim H|now elim H].
    + right; right. discriminate.
    + right; left. discriminate.
    + right; left. discriminate.
  - rewrite stateHasCriteria_editor. simpl. now rewrite orb_false_r.
  - intros v. reflexivity.
  - intros vs. reflexivity.
Qed.

(** *** The mount effects in editor mode *)

Lemma editorSearchEffect_idle (editorMode : bool) (c : Component) :
  initialSearchTriggeredRef c = true \/ hasSearched (cells c) = true ->
  editorSearchEffect editorMode c = (c, None).
Proof.
  intros H. unfold editorSearchEffect.
  destruct (negb editorMode); [reflexivity|].
  destruct (hasSearched (cells c)); [reflexivity|].
  destruct (initialSearchTriggeredRef c); [reflexivity|].
  destruct H as [H|H]; discriminate H.
Qed.

Lemma initialSearchEffect_editor_idle (isInitialized : bool) (c : Component) :
  initialSearchTriggeredRef c = true \/ hasSearched (cells c) = true ->
  initialSearchEffect_editor isInitialized c = (c, None).
Proof.
  intros H. unfold initialSearchEffect_editor.
  destruct (negb isInitialized); [reflexivity|].
  destruct (hasSearched (cells c)); [reflexivity|].
  destruct (initialSearchTriggeredRef c); [reflexivity|].
  destruct H as [H|H]; discriminate H.
Qed.

Lemma editorSearchEffect_cases (editorMode : bool) (c : Component) :
  editorSearchEffect editorMode c = (c, None)
  \/ exists k,
       snd (editorSearchEffect editorMode c) = Some k
       /\ initialSearchTriggeredRef (fst (editorSearchEffect editorMode c))
          = true.
Proof.
  unfold editorSearchEffect.
  destruct (negb editorMode); [now left|].
  destruct (hasSearched (cells c)); [now left|].
  destruct (initialSearchTriggeredRef c); [now left|].
  destruct (negb (stateHasCriteria _ _)); [now left|].
  right. eexists. split; reflexivity.
Qed.

Lemma initialSearchEffect_editor_cases (isInitialized : bool) (c : Component) :
  (snd (initialSearchEffect_editor isInitialized c) = None
   /\ initialSearchTriggeredRef (fst (initialSearchEffect_editor isInitialized c))
      = initialSearchTriggeredRef c)
  \/ exists k,
       snd (initialSearchEffect_editor isInitialized c) = Some k
       /\ initialSearchTriggeredRef
            (fst (initialSearchEffect_editor isInitialized c)) = true.
Proof.
  unfold initialSearchEffect_editor.
  destruct (negb isInitialized); [left; split; reflexivity|].
  destruct (hasSearched (cells c) || initialSearchTriggeredRef c);
    [left; split; reflexivity|].
  destruct (negb (stateHasCriteria _ _)); [left; split; reflexivity|].
  right. eexists. split; reflexivity.
Qed.

Lemma mountEffects_idle (isInitialized : bool) (c : Component) :
  initialSearchTriggeredRef c = true \/ hasSearched (cells c) = true ->
  mountEffects_editor isInitialized c = (c, []).
Proof.
  intros H. unfold mountEffects_editor.
  rewrite (initialSearchEffect_editor_idle isInitialized c H).
  cbn [fst snd]. rewrite (editorSearchEffect_idle true c H). reflexivity.
Qed.

(** X17.  In editor mode the two mount effects, run one after the other,
    start at most one search between them; when they start one the ref is
    set; and whenever the ref is set or a search has completed, running
    them starts nothing and leaves the component as it is, so that the
    initial search is not started again until [handleClearAll] re-arms
    it. *)
Theorem mount_effects_search_once :
  forall (isInitialized : bool) (c : Component),
    length (snd (mountEffects_editor isInitialized c)) <= 1
    /\ (snd (mountEffects_editor isInitialized c) <> [] ->
        initialSearchTriggeredRef (fst (mountEffects_editor isInitialized c))
        = true
        /\ forall again,
             snd (mountEffects_editor again
                    (fst (mountEffects_editor isInitialized c))) = [])
    /\ (forall again c',
          initialSearchTriggeredRef c' = true \/ hasSearched (cells c') = true ->
          mountEffects_editor again c' = (c', [])).
Proof.
  intros isInitialized c.
  assert (Hcases :
    (snd (mountEffects_editor isInitialized c) = [])
    \/ (exists k, snd (mountEffects_editor isInitialized c) = [k]
                  /\ initialSearchTriggeredRef
                       (fst (mountEffects_editor isInitialized c)) = true)).
  { unfold mountEffects_editor.
    destruct (initialSearchEffect_editor_cases isInitialized c)
      as [[Hn _]|(k & Hk & Href)].
    - rewrite Hn. cbn [app].
      destruct (editorSearchEffect_cases true
                  (fst (initialSearchEffect_editor isInitialized c)))
        as [E|(k & Hk & Href)].
      + left. rewrite E. reflexivity.
      + right. exists k. cbn [fst snd]. rewrite Hk. split; [reflexivity|exact Href].
    - right. exists k. cbn [fst snd].
      rewrite (editorSearchEffect_idle true _ (or_introl Href)).
      rewrite Hk. split; [reflexivity|exact Href]. }
  split; [|split].
  - destruct Hcases as [->|(k & -> & _)]; simpl; lia.
  - intros Hne. destruct Hcases as [E|(k & _ & Href)]; [contradiction|].
    split; [exact Href|]. intros again.
    rewrite (mountEffects_idle again _ (or_introl Href)). reflexivity.
  - intros again c' H. now apply mountEffects_idle.
Qed.

Lemma mount_effects_search_once_witness :
  snd (mountEffects_editor true component_mounted) <> []
  /\ initialSearchTriggeredRef (fst (mountEffects_editor true component_mounted))
     = true
  /\ snd (mountEffects_editor true
            (fst (mountEffects_editor true component_mounted))) = [].
Proof.
  assert (H : snd (mountEffects_editor true component_mounted) <> [])
    by (vm_compute; discriminate).
  split; [exact H|].
  destruct (proj1 (proj2 (mount_effects_search_once true component_mounted)) H)
    as [Href Hagain].
  split; [exact Href|apply Hagain].
Defined.

(** X18.  [handleManualSearch] always starts a search, also for a blank
    query with no filter: under the next token, for the trimmed query, the
    given filters and page 1.  The search state then holds the trimmed
    query, and when the search succeeds as the latest one the page shows
    its results as page 1 of the trimmed query. *)
Theorem handleManualSearch_searches_trimmed_query :
  forall (q : jsstring) (f : LocalSearchFilters) (p : Page) (d : SearchData),
    let p' := fst (handleManualSearch q f p) in
    let k := snd (handleManualSearch q f p) in
    requestId k = latestRequestRef p + 1
    /\ query k = trim q
    /\ filters k = f
    /\ page k = 1%Z
    /\ ss_query (searchState p') = trim q
    /\ ss_filters (searchState p') = f
    /\ display (step p' (Settle k (inr d)))
       = mkDisplay (results d) (total d)
           (mkPagination (totalPages d) (hasNext d) (hasPrev d))
           1%Z (trim q).
Proof.
  intros q f p d p' k. unfold p', k, handleManualSearch.
  rewrite cloneFilters_same.
  destruct (executeSearch_call_state (trim q) f (Some 1%Z) p) as [Hs _].
  split; [reflexivity|]. split; [reflexivity|]. split; [reflexivity|].
  split; [reflexivity|]. rewrite Hs. split; [reflexivity|].
  split; [reflexivity|].
  unfold step. rewrite executeSearch_resume_success; reflexivity.
Qed.

(* ================================================================== *)
(** ** Properties of the dropdown                                      *)
(* ================================================================== *)








Lemma str_includes_empty (s : jsstring) : Dropdown.str_includes s [] = true.
Proof. destruct s; reflexivity. Qed.

(** X21.  A choice in single mode passes the chosen value, closes the menu
    and empties the search term, and so does a press outside the
    component, without passing anything; with the search term empty a
    searchable dropdown lists every option again.  A dropdown that is not
    searchable always lists every option. *)
Theorem closing_resets_the_option_filter :
  forall (lower : jsstring -> jsstring) (options : list Dropdown.Option)
         (cur val : jsstring) (st : Dropdown.Local) (searchable : bool),
    lower [] = [] ->
    let chosen := Dropdown.handleSelect false (Dropdown.SingleSelect cur) val st in
    let left := Dropdown.handleClickOutside false st in
    fst chosen = Some (Dropdown.EmitOne val)
    /\ Dropdown.isOpen (snd chosen) = false
    /\ Dropdown.isOpen left = false
    /\ Dropdown.filteredOptions lower searchable options (snd chosen) = options
    /\ Dropdown.filteredOptions lower searchable options left = options
    /\ Dropdown.filteredOptions lower false options st = options.
Proof.
  intros lower options cur val st searchable Hl chosen left.
  assert (Hall : Dropdown.filteredOptions lower searchable options
                   (Dropdown.mkLocal false []) = options).
  { unfold Dropdown.filteredOptions. destruct searchable; [|reflexivity].
    apply filter_all. intros o _. simpl. rewrite Hl.
    apply str_includes_empty. }
  repeat split; assumption.
Qed.

Lemma closing_resets_the_option_filter_witness :
  toLowerCase_latin1 [] = []
  /\ Dropdown.filteredOptions toLowerCase_latin1 true [option_a; option_z]
       (snd (Dropdown.handleSelect false (Dropdown.SingleSelect s_a) s_z
               (Dropdown.mkLocal true s_Z)))
     = [option_a; option_z].
Proof.
  assert (H : toLowerCase_latin1 [] = []) by reflexivity.
  split; [exact H|].
  exact (proj1 (proj2 (proj2 (proj2
           (closing_resets_the_option_filter toLowerCase_latin1
              [option_a; option_z] s_a s_z (Dropdown.mkLocal true s_Z) true
              H))))).
Defined.

(* ================================================================== *)
(** ** Properties of the add-word form                                 *)
(* ================================================================== *)

Lemma trimStart_head (s : jsstring) :
  trimStart s = []
  \/ exists c t, trimStart s = c :: t /\ is_ws c = false.
Proof.
  induction s as [|c s IH]; simpl; [now left|].
  destruct (is_ws c) eqn:E; [exact IH|].
  right. now exists c, s.
Qed.

Lemma trimStart_kept (c : N) (t : jsstring) :
  is_ws c = false -> trimStart (c :: t) = c :: t.
Proof. intros H. simpl. now rewrite H. Qed.

Lemma trimStart_idempotent (s : jsstring) :
  trimStart (trimStart s) = trimStart s.
Proof.
  destruct (trimStart_head s) as [->|(c & t & -> & Hc)]; [reflexivity|].
  now apply trimStart_kept.
Qed.

Lemma trimStart_snoc (l : jsstring) (c : N) :
  is_ws c = false -> exists u, trimStart (l ++ [c]) = u ++ [c].
Proof.
  intros Hc. induction l as [|a l IH]; simpl.
  - rewrite Hc. now exists [].
  - destruct (is_ws a); [exact IH|]. now exists (a :: l).
Qed.

Lemma trimEnd_head (c : N) (t : jsstring) :
  is_ws c = false -> exists t', trimEnd (c :: t) = c :: t'.
Proof.
  intros Hc. unfold trimEnd. simpl.
  destruct (trimStart_snoc (rev t) c Hc) as [u ->].
  rewrite rev_app_distr. simpl. now exists (rev u).
Qed.

Lemma trimEnd_idempotent (s : jsstring) : trimEnd (trimEnd s) = trimEnd s.
Proof.
  unfold trimEnd. now rewrite rev_involutive, trimStart_idempotent.
Qed.

Lemma trim_idempotent (s : jsstring) : trim (trim s) = trim s.
Proof.
  unfold trim.
  destruct (trimStart_head s) as [->|(c & t & -> & Hc)]; [reflexivity|].
  destruct (trimEnd_head c t Hc) as [t' E]. rewrite E.
  rewrite (trimStart_kept c t' Hc), <- E. apply trimEnd_idempotent.
Qed.

Lemma createWord_lemma_accepted (lower : jsstring -> jsstring) (now : Z)
  (newWord : Word) (options : CreateWordOptions) (db : DB) :
  trim (lemma newWord) <> [] ->
  fst (createWord lower now newWord options db) <> inl LemaObligatorio.
Proof.
  intros Hne.
  destruct (createWord lower now newWord options db) as [res db'] eqn:H.
  simpl.
  destruct (createWord_cases _ _ _ _ _ _ _ H)
    as [(Ht & _)|[(f & _ & -> & _)|[(_ & _ & _ & ->)
        |(_ & _ & row & db1 & lres & _ & Hl & ->)]]];
    try contradiction; try discriminate.
  destruct lres as [e|u]; [|discriminate].
  destruct (for_of_insertMeaning_failure _ _ _ _ _ _ Hl)
    as (_ & _ & _ & _ & _ & -> & _).
  discriminate.
Qed.

(** X22.  [handleAddWord] sends nothing when the lemma of the form is
    blank.  What it posts carries the trimmed lemma, which is not empty
    and which trimming leaves as it is, the trimmed root, no meanings, and
    never an empty string as letter; so a [createWord] for a word with the
    posted lemma does not fail for a missing lemma. *)
Theorem handleAddWord_posts_trimmed_lemma :
  forall (U : Type) (lower : jsstring -> jsstring)
         (parseInt10 : jsstring -> option Z) (createdById : U)
         (f : AddWordModal.Form),
    (forallb is_ws (AddWordModal.newWordLemma f) = true ->
     AddWordModal.handleAddWord lower parseInt10 createdById f
     = AddWordModal.Alerted)
    /\ forall path b,
         AddWordModal.handleAddWord lower parseInt10 createdById f
         = AddWordModal.Posted path b ->
         path = trim (AddWordModal.newWordLemma f)
         /\ AddWordModal.body_lemma b = path
         /\ path <> []
         /\ trim path = path
         /\ AddWordModal.body_root b = trim (AddWordModal.newWordRoot f)
         /\ AddWordModal.body_values b = []
         /\ AddWordModal.body_letter b <> Val []
         /\ AddWordModal.body_createdBy b = createdById
         /\ forall lower' now newWord options db,
              lemma newWord = AddWordModal.body_lemma b ->
              fst (createWord lower' now newWord options db)
              <> inl LemaObligatorio.
Proof.
  intros U lower parseInt10 createdById f. split.
  - intros H. unfold AddWordModal.handleAddWord.
    now rewrite (trim_blank _ H).
  - intros path b. unfold AddWordModal.handleAddWord.
    destruct (trim (AddWordModal.newWordLemma f)) as [|c l] eqn:Et;
      [intros H; discriminate H|].
    intros H. injection H as <- <-. simpl.
    assert (Hid : trim (c :: l) = c :: l) by (rewrite <- Et; apply trim_idempotent).
    split; [reflexivity|]. split; [reflexivity|]. split; [discriminate|].
    split; [exact Hid|]. split; [reflexivity|]. split; [reflexivity|].
    split; [|split; [reflexivity|]].
    + destruct (lower (trim (AddWordModal.newWordLetter f))) as [|x xs];
        [destruct (lower [c])|]; discriminate.
    + intros lower' now newWord options db Hl.
      apply createWord_lemma_accepted. rewrite Hl, Hid. discriminate.
Qed.

Lemma handleAddWord_posts_trimmed_lemma_witness :
  AddWordModal.handleAddWord toLowerCase_latin1 (fun _ => None) (Some 7) form_casa
  = AddWordModal.Posted s_casa
      (AddWordModal.mkBody s_casa [] (Val [99%N]) None [] (Some 7))
  /\ trim s_casa = s_casa.
Proof.
  assert (H : AddWordModal.handleAddWord toLowerCase_latin1 (fun _ => None)
                (Some 7) form_casa
              = AddWordModal.Posted s_casa
                  (AddWordModal.mkBody s_casa [] (Val [99%N]) None []
                     (Some 7))) by (vm_compute; reflexivity).
  split; [exact H|].
  destruct (proj2 (handleAddWord_posts_trimmed_lemma (option nat)
                     toLowerCase_latin1 (fun _ => None) (Some 7) form_casa)
              _ _ H) as (_ & _ & _ & Ht & _).
  exact Ht.
Defined.
